(** * golang-interfaces: a shallow embedding of the three Go source files

    - [MainPkg]  : main.go, the [User] struct and its methods.
    - [Scraper]  : learning/scraper.go, the bounded concurrent batch
                   [ConcurrentScraper.Scrape] as an interleaving semantics
                   of the main goroutine and the spawned goroutines.
    - [Context]  : learning/context.go, the timeout race [fetchUserData]
                   as an interleaving semantics with a logical clock.

    The definitions come first; [ScraperProofs], [MainPkgProofs] and
    [ContextProofs] hold what is proved about them. *)

From Stdlib Require Import ZArith Lia Strings.Byte.
From stdpp Require Import base list strings pretty.

(* ===================================================================== *)
(** * main.go *)
(* ===================================================================== *)

Module MainPkg.

(** [type User struct { name string; age uint8; email string }].
    [age] is a [uint8]; no arithmetic is done on it anywhere. *)
Record User := mkUser { name : string; age : N; email : string }.

(** [func (u User) Email() string] (value receiver). *)
Definition Email (u : User) : string := email u.

(** [func (u *User) updateEmail(email string)]: the pointer receiver is
    rendered by returning the struct after the assignment. *)
Definition updateEmail (u : User) (e : string) : User :=
  {| name := name u; age := age u; email := e |}.

(** [func Email(u *User) string] (the free function of the same name). *)
Definition Email_ptr (u : User) : string := email u.

(** [main]: the line handed to [fmt.Println]. Fields that the composite
    literal leaves out hold Go's zero values. *)
Definition main : string :=
  let user := {| name := ""%string; age := 0%N; email := "mark.teekens@outlook.com"%string |} in
  let user := updateEmail user "foobar@gmail.com"%string in
  Email user.

End MainPkg.

(* ===================================================================== *)
(** * learning/scraper.go *)
(* ===================================================================== *)

Module Scraper.

(** [type Result struct { URL string; Data []byte; Err error }];
    a nil [error] is [None], a non-nil one carries its message. *)
Record Result := mkResult { URL : string; Data : list byte; Err : option string }.

(** The [Scraper] interface: [Scrape(ctx, url) ([]byte, error)].  The
    executor is opaque to the dispatcher; what it returns may depend on
    the task that calls it, on whether [ctx] is done when it returns, and
    on the url.  It is taken to return: an executor that hangs or panics
    is outside this model. *)
Definition Executor := nat -> bool -> string -> list byte * option string.

(** Program points of the goroutine spawned for one url:
<<
    go func(url string) {
        defer wg.Done()
        semaphore <- struct{}{}            // GAcquire
        defer func() { <-semaphore }()
        Worker(ctx, c.Scraper, url, results)
          // data, err := scraper.Scrape(ctx, url)      GCall, then GFetch
          // results <- Result{url, data, err}          GSend
    }(url)                                 // deferred: GRelease, GDone
>>
    The deferred calls run last-in first-out: [<-semaphore], then
    [wg.Done()].  From [GSend] on, the point carries the [Result] that
    the task built. *)
Inductive gpc :=
| GAcquire
| GCall
| GFetch
| GSend (r : Result)
| GRelease (r : Result)
| GDone (r : Result)
| GExit (r : Result).

Record goroutine := mkG { g_url : string; g_pc : gpc }.

(** Program points of [ConcurrentScraper.Scrape] itself. *)
Inductive mpc :=
| MInit                          (* before the two [make(chan ...)] *)
| MSpawn (rest : list string)    (* the [for _, url := range urls] loop *)
| MWait                          (* [wg.Wait()] *)
| MClose                         (* [close(results)] *)
| MRange (acc : list Result)     (* [for result := range results] *)
| MReturn (final : list Result)  (* [return finalResults] *)
| MPanic.                        (* run-time panic in [make] *)

Record state := mkState {
  ctx_done : bool;            (* has [ctx.Done()] been closed *)
  main : mpc;
  wg : Z;                     (* the [sync.WaitGroup] counter *)
  sem : nat;                  (* tokens buffered in [semaphore] *)
  results : list Result;      (* buffer of the [results] channel *)
  results_closed : bool;
  gos : list goroutine;       (* spawned goroutines, in spawn order *)
  calls : list (string * bool)
    (* instrumentation: every entry into the executor, with the state of
       [ctx] at that moment *)
}.

(** One scheduling decision. *)
Inductive event :=
| EvMain                 (* the caller's goroutine takes its next step *)
| EvGo (i : nat)         (* spawned goroutine [i] takes its next step *)
| EvHandoff (i j : nat)  (* rendezvous on an unbuffered [semaphore]:
                            [i] sends, [j] receives *)
| EvCancel.              (* the deadline fires or the caller cancels *)

Definition set_main (m : mpc) (s : state) : state :=
  mkState (ctx_done s) m (wg s) (sem s) (results s) (results_closed s) (gos s) (calls s).

Definition set_pc (i : nat) (g : goroutine) (p : gpc) (s : state) : state :=
  mkState (ctx_done s) (main s) (wg s) (sem s) (results s) (results_closed s)
          (<[i := mkG (g_url g) p]> (gos s)) (calls s).

Definition set_sem (n : nat) (s : state) : state :=
  mkState (ctx_done s) (main s) (wg s) n (results s) (results_closed s) (gos s) (calls s).

Definition set_wg (z : Z) (s : state) : state :=
  mkState (ctx_done s) (main s) z (sem s) (results s) (results_closed s) (gos s) (calls s).

Definition set_results (rs : list Result) (s : state) : state :=
  mkState (ctx_done s) (main s) (wg s) (sem s) rs (results_closed s) (gos s) (calls s).

Definition log_call (u : string) (s : state) : state :=
  mkState (ctx_done s) (main s) (wg s) (sem s) (results s) (results_closed s) (gos s)
          (calls s ++ [(u, ctx_done s)]).

(** ** Observations on the pool of spawned goroutines *)

(** A goroutine holds a slot of [semaphore] from its send to its deferred
    receive. *)
Definition holding (p : gpc) : bool :=
  match p with GCall | GFetch | GSend _ | GRelease _ => true | _ => false end.

(** It is inside the executor between the call of [scraper.Scrape] and its
    return. *)
Definition in_executor (p : gpc) : bool :=
  match p with GFetch => true | _ => false end.

(** It has not yet run its deferred [wg.Done()]. *)
Definition live (p : gpc) : bool :=
  match p with GExit _ => false | _ => true end.

(** It has called the executor. *)
Definition entered (p : gpc) : bool :=
  match p with GAcquire | GCall => false | _ => true end.

(** It waits at the admission gate. *)
Definition at_gate (p : gpc) : bool :=
  match p with GAcquire => true | _ => false end.

(** The [Result] a goroutine has built, and the one it has already put
    on [results]. *)
Definition built (p : gpc) : option Result :=
  match p with
  | GSend r | GRelease r | GDone r | GExit r => Some r
  | _ => None
  end.

Definition outcome (p : gpc) : option Result :=
  match p with
  | GRelease r | GDone r | GExit r => Some r
  | _ => None
  end.

Fixpoint total (w : gpc -> nat) (gs : list goroutine) : nat :=
  match gs with
  | [] => 0
  | g :: gs' => w (g_pc g) + total w gs'
  end.

Definition count (f : gpc -> bool) (gs : list goroutine) : nat :=
  total (fun p => if f p then 1 else 0) gs.

Fixpoint collect {A} (f : goroutine -> list A) (gs : list goroutine) : list A :=
  match gs with
  | [] => []
  | g :: gs' => f g ++ collect f gs'
  end.

(** The results sent so far, and the urls handed to the executor so far,
    both in spawn order. *)
Definition outcomes (gs : list goroutine) : list Result :=
  collect (fun g => option_list (outcome (g_pc g))) gs.

Definition entered_urls (gs : list goroutine) : list string :=
  collect (fun g => if entered (g_pc g) then [g_url g] else []) gs.

(** The state on entry to [Scrape]; [c0] tells whether the caller's
    context is already done. *)
Definition init (c0 : bool) : state :=
  mkState c0 MInit 0 0 [] false [] [].

Section Dispatcher.

(** [c.Scraper], [c.NumWorkers] and the argument [urls]. *)
Variable fetch : Executor.
Variable NumWorkers : Z.
Variable urls : list string.

(** Steps of the caller's goroutine. *)
Definition main_step (s : state) : option state :=
  match main s with
  | MInit =>
      (* [make(chan Result, len(urls))] cannot fail; [make(chan struct{},
         c.NumWorkers)] panics on a negative size *)
      if (NumWorkers <? 0)%Z then Some (set_main MPanic s)
      else Some (set_main (MSpawn urls) s)
  | MSpawn (u :: rest) =>
      (* [wg.Add(1); go func(url string) {...}(url)] *)
      Some (mkState (ctx_done s) (MSpawn rest) (wg s + 1) (sem s) (results s)
                    (results_closed s) (gos s ++ [mkG u GAcquire]) (calls s))
  | MSpawn [] => Some (set_main MWait s)
  | MWait => if (wg s =? 0)%Z then Some (set_main MClose s) else None
  | MClose =>
      Some (mkState (ctx_done s) (MRange []) (wg s) (sem s) (results s) true
                    (gos s) (calls s))
  | MRange acc =>
      match results s with
      | r :: rs => Some (set_results rs (set_main (MRange (acc ++ [r])) s))
      | [] => if results_closed s then Some (set_main (MReturn acc) s) else None
      end
  | MReturn _ => None
  | MPanic => None
  end.

(** Steps of spawned goroutine [i], currently [g]. *)
Definition go_step (i : nat) (g : goroutine) (s : state) : option state :=
  match g_pc g with
  | GAcquire =>
      (* a send on a buffered channel goes through while the buffer has
         room; with capacity 0 it needs a receiver, see [handoff] *)
      if (Z.of_nat (sem s) <? NumWorkers)%Z
      then Some (set_pc i g GCall (set_sem (S (sem s)) s))
      else None
  | GCall => Some (set_pc i g GFetch (log_call (g_url g) s))
  | GFetch =>
      let '(data, err) := fetch i (ctx_done s) (g_url g) in
      Some (set_pc i g (GSend (mkResult (g_url g) data err)) s)
  | GSend r =>
      (* [results] has room for [len(urls)] values; it is closed only
         after [wg.Wait()], when no sender is left *)
      if results_closed s then None
      else if length (results s) <? length urls
      then Some (set_pc i g (GRelease r) (set_results (results s ++ [r]) s))
      else None
  | GRelease r =>
      match sem s with
      | S n => Some (set_pc i g (GDone r) (set_sem n s))
      | O => None
      end
  | GDone r => Some (set_pc i g (GExit r) (set_wg (wg s - 1) s))
  | GExit _ => None
  end.

(** Rendezvous on [semaphore] when it is unbuffered ([NumWorkers = 0]):
    the send of [i] meets the deferred receive of [j]. *)
Definition handoff (i j : nat) (s : state) : option state :=
  if (NumWorkers =? 0)%Z then
    match gos s !! i, gos s !! j with
    | Some gi, Some gj =>
        match g_pc gi, g_pc gj with
        | GAcquire, GRelease r => Some (set_pc j gj (GDone r) (set_pc i gi GCall s))
        | _, _ => None
        end
    | _, _ => None
    end
  else None.

Definition step (e : event) (s : state) : option state :=
  match e with
  | EvMain => main_step s
  | EvGo i =>
      match gos s !! i with
      | Some g => go_step i g s
      | None => None
      end
  | EvHandoff i j => handoff i j s
  | EvCancel =>
      if ctx_done s then None
      else Some (mkState true (main s) (wg s) (sem s) (results s)
                         (results_closed s) (gos s) (calls s))
  end.

(** A schedule is a list of scheduling decisions; [run] is [None] as soon
    as a decision picks a step that is not enabled. *)
Fixpoint run (sched : list event) (s : state) : option state :=
  match sched with
  | [] => Some s
  | e :: sched' =>
      match step e s with
      | Some s' => run sched' s'
      | None => None
      end
  end.

(** ** Returned states *)

Definition returned (s : state) : Prop :=
  exists final, main s = MReturn final.

(** ** A bound on the number of steps still to come *)

Definition gweight (p : gpc) : nat :=
  match p with
  | GAcquire => 7 | GCall => 6 | GFetch => 5 | GSend _ => 4
  | GRelease _ => 2 | GDone _ => 1 | GExit _ => 0
  end.

Definition mweight (m : mpc) : nat :=
  match m with
  | MInit => 8 * length urls + 5
  | MSpawn rest => 8 * length rest + 4
  | MWait => 3
  | MClose => 2
  | MRange _ => 1
  | MReturn _ | MPanic => 0
  end.

Definition fuel (s : state) : nat :=
  (if ctx_done s then 0 else 1) + mweight (main s)
  + total gweight (gos s) + length (results s).

(** ** The invariant of a batch run with a non-negative limit *)

(** Urls of the loop that have no goroutine yet. *)
Definition pending (m : mpc) : list string :=
  match m with
  | MInit => urls
  | MSpawn rest => rest
  | _ => []
  end.

(** Results already appended to [finalResults]. *)
Definition collected (m : mpc) : list Result :=
  match m with
  | MRange acc | MReturn acc => acc
  | _ => []
  end.

(** The caller is past [wg.Wait()]. *)
Definition joined (m : mpc) : bool :=
  match m with MClose | MRange _ | MReturn _ => true | _ => false end.

(** The caller is past [close(results)]. *)
Definition ranging (m : mpc) : bool :=
  match m with MRange _ | MReturn _ => true | _ => false end.

(** The [Result] built by task [i] is [Result{URL: url, Data: data, Err:
    err}] for the pair the executor returned to it. *)
Definition built_ok (i : nat) (g : goroutine) : Prop :=
  forall r, built (g_pc g) = Some r ->
    URL r = g_url g /\ exists c, (Data r, Err r) = fetch i c (g_url g).

Record Inv (s : state) : Prop := mkInv {
  inv_nopanic : main s <> MPanic;
  inv_urls : map g_url (gos s) ++ pending (main s) = urls;
  inv_wg : wg s = Z.of_nat (count live (gos s));
  inv_sem : sem s = count holding (gos s);
  inv_cap : (Z.of_nat (sem s) <= NumWorkers)%Z;
  inv_out : collected (main s) ++ results s ≡ₚ outcomes (gos s);
  inv_closed : results_closed s = ranging (main s);
  inv_joined : joined (main s) = true -> count live (gos s) = 0;
  inv_ret : forall final, main s = MReturn final -> results s = [];
  inv_built : forall i g, gos s !! i = Some g -> built_ok i g;
  inv_calls : map fst (calls s) ≡ₚ entered_urls (gos s)
}.

(** ** The batch under a context that is done from the start *)

Record DoneInv (s : state) : Prop := mkDoneInv {
  done_ctx : ctx_done s = true;
  done_calls : Forall (fun uc => snd uc = true) (calls s);
  done_built : forall i g r, gos s !! i = Some g -> built (g_pc g) = Some r ->
                 (Data r, Err r) = fetch i true (g_url g)
}.

(** ** The batch under a limit below one *)

Record GateInv (s : state) : Prop := mkGateInv {
  gate_calls : calls s = [];
  gate_sem : sem s = 0;
  gate_pool : Forall (fun g => g_pc g = GAcquire) (gos s);
  gate_wg : wg s = Z.of_nat (length (gos s));
  gate_joined : joined (main s) = true -> gos s = [];
  gate_urls : main s <> MPanic -> map g_url (gos s) ++ pending (main s) = urls;
  gate_neg : (NumWorkers < 0)%Z -> gos s = [] /\ (main s = MInit \/ main s = MPanic);
  gate_panic : main s = MPanic -> (NumWorkers < 0)%Z
}.

(** ** The batch of no key at all *)

Record EmptyInv (s : state) : Prop := mkEmptyInv {
  empty_pool : gos s = [];
  empty_calls : calls s = [];
  empty_wg : wg s = 0%Z;
  empty_results : results s = [];
  empty_collected : collected (main s) = [];
  empty_closed : results_closed s = ranging (main s);
  empty_nopanic : main s <> MPanic;
  empty_spawn : forall rest, main s = MSpawn rest -> rest = []
}.

(** ** The batch and the cancellation signal *)

(** From one state of the pool to a later one: a [Result] that a task has
    built stays with that task. *)
Definition kept (gs gs' : list goroutine) : Prop :=
  forall i g r, gs !! i = Some g -> built (g_pc g) = Some r ->
    exists g', gs' !! i = Some g' /\ g_url g' = g_url g /\
               built (g_pc g') = Some r.

(** From one state of the pool to the next: a [Result] found with a task
    was there before, or the task had none and has just got it from the
    executor, called for its url under a context in state [c]. *)
Definition fresh (c : bool) (gs gs' : list goroutine) : Prop :=
  forall i g' r, gs' !! i = Some g' -> built (g_pc g') = Some r ->
    exists g, gs !! i = Some g /\ g_url g' = g_url g /\
      (built (g_pc g) = Some r \/
       (built (g_pc g) = None /\ (Data r, Err r) = fetch i c (g_url g))).

(** The context is seen done only if it is done: by the executor when it
    returns a task's pair, and at every entry into the executor. *)
Record LiveInv (s : state) : Prop := mkLiveInv {
  live_built : forall i g r, gos s !! i = Some g -> built (g_pc g) = Some r ->
                 exists c, (Data r, Err r) = fetch i c (g_url g) /\
                           (c = true -> ctx_done s = true);
  live_calls : Forall (fun uc => snd uc = true -> ctx_done s = true) (calls s)
}.

(** Task [i] has no [Result] yet in [s]: it is not spawned, it stands at
    the gate, it is about to call the executor, or it is inside it. *)
Definition unanswered (s : state) (i : nat) : Prop :=
  forall g, gos s !! i = Some g -> built (g_pc g) = None.

(** How a state [s] of a run stands to an earlier state [s0] of it. *)
Record Since (s0 s : state) : Prop := mkSince {
  since_kept : kept (gos s0) (gos s);
  since_ctx : ctx_done s0 = true -> ctx_done s = true;
  since_calls : exists new, calls s = calls s0 ++ new /\
                  (ctx_done s0 = true -> Forall (fun uc => snd uc = true) new);
  since_built : ctx_done s0 = true ->
                forall i g r, gos s !! i = Some g -> built (g_pc g) = Some r ->
                  unanswered s0 i -> (Data r, Err r) = fetch i true (g_url g)
}.

End Dispatcher.

(** ** Concrete executors, key lists and schedules *)

(** An executor that honours cancellation: a done context makes it fail,
    otherwise it returns the two bytes "ok". *)
Definition polite_fetch : Executor :=
  fun _ c _ => if c then ([], Some "context deadline exceeded"%string)
               else ([x6f; x6b], None).

(** The six steps of one goroutine, from the gate to its exit. *)
Definition whole_task (i : nat) : list event :=
  [EvGo i; EvGo i; EvGo i; EvGo i; EvGo i; EvGo i].

(** Two keys, run one task after the other. *)
Definition two_in_turn : list event :=
  [EvMain; EvMain; EvMain; EvMain] ++ whole_task 0 ++ whole_task 1
  ++ [EvMain; EvMain; EvMain; EvMain; EvMain].

(** Two keys, both tasks admitted and inside the executor together. *)
Definition two_inside : list event :=
  [EvMain; EvMain; EvMain; EvMain; EvGo 0; EvGo 1; EvGo 0; EvGo 1].

(** One key: the task is admitted and calls the executor. *)
Definition one_called : list event :=
  [EvMain; EvMain; EvMain; EvGo 0; EvGo 0].

(** No key: the caller alone. *)
Definition nobody : list event := [EvMain; EvMain; EvMain; EvMain; EvMain].

(** The states these schedules end in. *)
Definition end_of (fetch : Executor) (n : Z) (urls : list string)
    (sched : list event) (c0 : bool) : state :=
  match run fetch n urls sched (init c0) with
  | Some s => s
  | None => init c0
  end.

Definition two_in_turn_end : state :=
  Eval vm_compute in end_of polite_fetch 2 ["a"; "b"]%string two_in_turn false.

Definition two_inside_end : state :=
  Eval vm_compute in end_of polite_fetch 2 ["a"; "b"]%string two_inside false.

Definition one_called_end : state :=
  Eval vm_compute in end_of polite_fetch 1 ["a"]%string one_called true.

Definition nobody_end : state :=
  Eval vm_compute in end_of polite_fetch 0 [] nobody false.

(** One key under limit 0: the caller spawns the task and waits. *)
Definition one_spawned : list event := [EvMain; EvMain; EvMain].

Definition one_spawned_end : state :=
  Eval vm_compute in end_of polite_fetch 0 ["a"]%string one_spawned false.

Definition panicked : state :=
  Eval vm_compute in end_of polite_fetch (-1) [] [EvMain] false.

(** ** [SimpleScraper.Scrape] *)

(** What the library calls made by one [SimpleScraper.Scrape] yield:
    the error of [http.NewRequestWithContext], the error of
    [s.Client.Do], the status code of the response, and the bytes and the
    error of [io.ReadAll(resp.Body)].  A nil error is [None]. *)
Record Exchange := mkExchange {
  new_request : option string;
  client_do : option string;
  status_code : Z;
  read_all : list byte * option string
}.

(** [http.StatusOK]. *)
Definition StatusOK : Z := 200.

(** [func (s *SimpleScraper) Scrape(ctx, url) ([]byte, error)]; the
    errors are wrapped by [fmt.Errorf], a nil slice is the empty list. *)
Definition SimpleScraper_Scrape (x : Exchange) (url : string)
    : list byte * option string :=
  match new_request x with
  | Some e => ([], Some ("failed to create request: " +:+ e))
  | None =>
      match client_do x with
      | Some e => ([], Some ("failed to fetch url " +:+ url +:+ ": " +:+ e))
      | None =>
          if negb (status_code x =? StatusOK)%Z
          then ([], Some ("bad status code: " +:+ pretty (status_code x)))
          else
            match read_all x with
            | (_, Some e) => ([], Some ("failed to read response body: " +:+ e))
            | (body, None) => (body, None)
            end
      end
  end.

(** The network as the tasks of a batch meet it: what task [i] gets for
    [url] when its context is in state [c]. *)
Definition Net := nat -> bool -> string -> Exchange.

(** A [*SimpleScraper] used as the [Scraper] of a batch. *)
Definition SimpleScraper (net : Net) : Executor :=
  fun i c url => SimpleScraper_Scrape (net i c url) url.

(** ** [ProcessResults] *)

Definition newline : string := String (Ascii.ascii_of_nat 10) EmptyString.

(** The text of the one [fmt.Printf] that [ProcessResults] makes for a
    result. *)
Definition report (r : Result) : string :=
  match Err r with
  | Some e => "Failed to fetch " +:+ URL r +:+ ": " +:+ e +:+ newline
  | None =>
      "Fetched " +:+ pretty (length (Data r)) +:+ " bytes from " +:+ URL r
      +:+ newline
  end.

(** [func ProcessResults(results []Result)]: what it prints, one entry per
    [fmt.Printf]. *)
Definition ProcessResults (results : list Result) : list string :=
  map report results.

(** ** [ScraperExec] *)

Definition ScraperExec_urls : list string :=
  ["https://example.com"; "https://golang.org"; "https://github.com"]%string.

(** [NewConcurrentScraper(scraper, 5)]. *)
Definition ScraperExec_workers : Z := 5.

(** A network on which every page is there, and one on which the third
    site answers 404. *)
Definition fine_page : Exchange := mkExchange None None 200 ([x6f; x6b], None).

Definition fine_net : Net := fun _ _ _ => fine_page.

Definition net_404 : Net :=
  fun _ _ u => if String.eqb u "https://github.com"
               then mkExchange None None 404 ([x6e; x6f], None)
               else fine_page.

(** [ScraperExec] with its three tasks spawned, and run to the return one
    task after the other. *)
Definition exec_spawned : list event := [EvMain; EvMain; EvMain; EvMain; EvMain].

Definition exec_whole : list event :=
  exec_spawned ++ whole_task 0 ++ whole_task 1 ++ whole_task 2
  ++ [EvMain; EvMain; EvMain; EvMain; EvMain; EvMain].

Definition exec_spawned_end : state :=
  Eval vm_compute in
    end_of (SimpleScraper fine_net) ScraperExec_workers ScraperExec_urls
           exec_spawned false.

Definition exec_whole_end : state :=
  Eval vm_compute in
    end_of (SimpleScraper net_404) ScraperExec_workers ScraperExec_urls
           exec_whole false.

(** One key: the task has its result and stands at the send. *)
Definition one_sending : list event :=
  [EvMain; EvMain; EvMain; EvGo 0; EvGo 0; EvGo 0].

Definition one_sending_end : state :=
  Eval vm_compute in end_of polite_fetch 1 ["a"]%string one_sending false.

(** Two keys, the second task run before the first. *)
Definition two_swapped : list event :=
  [EvMain; EvMain; EvMain; EvMain] ++ whole_task 1 ++ whole_task 0
  ++ [EvMain; EvMain; EvMain; EvMain; EvMain].

(** ** Failures and cancellation in the middle of a batch *)

(** An executor that honours cancellation and whose fetch of ["bad"]
    fails. *)
Definition careful_fetch : Executor :=
  fun _ c u =>
    if c then ([], Some "context canceled"%string)
    else if String.eqb u "bad" then ([], Some "bad status code: 500"%string)
    else ([x6f; x6b], None).

(** Three keys under limit 1, the failing one first. *)
Definition bad_first : list string := ["bad"; "a"; "b"]%string.

Definition bad_first_end : state :=
  Eval vm_compute in end_of careful_fetch 1 bad_first exec_whole false.

(** Two keys under limit 1: the first task runs to its end, then the
    signal fires; the second task runs after that. *)
Definition before_signal : list event :=
  [EvMain; EvMain; EvMain; EvMain] ++ whole_task 0 ++ [EvCancel].

Definition after_signal : list event :=
  whole_task 1 ++ [EvMain; EvMain; EvMain; EvMain; EvMain].

Definition signal_fired : state :=
  Eval vm_compute in end_of polite_fetch 1 ["a"; "b"]%string before_signal false.

Definition signal_end : state :=
  Eval vm_compute in
    end_of polite_fetch 1 ["a"; "b"]%string (before_signal ++ after_signal) false.

End Scraper.

(* ===================================================================== *)
(** * learning/context.go *)
(* ===================================================================== *)

Module Context.

(** [type Response struct { value int; err error }]. *)
Record Response := mkResponse { value : Z; err : option string }.

(** A call that sleeps and then returns a pair [(int, error)]. *)
Record SlowCall := mkSlow { sleep_ms : Z; ret : Z * option string }.

(** [fetchThirdPartyStuffWhichCanBeSlow]: [time.Sleep(150ms)], then
    [return 666, nil]. *)
Definition fetchThirdPartyStuffWhichCanBeSlow : SlowCall :=
  mkSlow 150 (666%Z, None).

(** [time.Millisecond*200], the budget given to [context.WithTimeout]. *)
Definition budget_ms : Z := 200.

(** The message of the error built by [fmt.Errorf] in the timeout case. *)
Definition too_long : string :=
  "fetching data from third party took too long"%string.

(** Program points of the anonymous goroutine:
<<
    go func() {
        val, err := fetchThirdPartyStuffWhichCanBeSlow()   // BSleep
        respch <- Response{value: val, err: err}           // BSend
    }()                                                    // BExit
>> *)
Inductive bpc :=
| BSleep
| BSend (r : Response)
| BExit.

(** Program points of [fetchUserData]: blocked in the [select], or
    returned with its pair of results. *)
Inductive mpc :=
| MSelect
| MReturn (v : Z) (e : option string).

(** [parent] is the moment, in milliseconds after entry, at which the
    context passed by the caller becomes done ([None]: never, as for
    [context.Background()]). *)
Record state := mkState {
  now : Z;                  (* milliseconds since entry *)
  parent : option Z;
  userID : Z;               (* the argument, kept in the frame *)
  cancelled : bool;         (* the deferred [cancel()] has run *)
  bg : bpc;
  mn : mpc
}.

(** When the context derived by [context.WithTimeout(ctx, 200ms)] is done:
    at the parent's moment or when the budget is spent, whichever comes
    first, or once [cancel] was called. *)
Definition deadline (s : state) : Z :=
  match parent s with
  | Some d => Z.min d budget_ms
  | None => budget_ms
  end.

Definition ctx_is_done (s : state) : bool :=
  cancelled s || (deadline s <=? now s)%Z.

Inductive event :=
| EvTick (dt : Z)   (* [dt] milliseconds pass *)
| EvSlowReturns     (* the slow call returns in the goroutine *)
| EvSelectDone      (* [select] takes [case <-ctx.Done()] *)
| EvSelectResp.     (* [select] takes [case resp := <-respch] *)

(** [fetchUserData(ctx, userID)] on entry: the derived context exists, the
    unbuffered [respch] exists, the goroutine has been started. *)
Definition fetchUserData (ctx : option Z) (uid : Z) : state :=
  mkState 0 ctx uid false BSleep MSelect.

Section Race.

Variable slow : SlowCall.

Definition step (e : event) (s : state) : option state :=
  match e with
  | EvTick dt =>
      if (0 <? dt)%Z
      then Some (mkState (now s + dt) (parent s) (userID s) (cancelled s) (bg s) (mn s))
      else None
  | EvSlowReturns =>
      match bg s with
      | BSleep =>
          if (sleep_ms slow <=? now s)%Z
          then Some (mkState (now s) (parent s) (userID s) (cancelled s)
                             (BSend (mkResponse (fst (ret slow)) (snd (ret slow)))) (mn s))
          else None
      | _ => None
      end
  | EvSelectDone =>
      match mn s with
      | MSelect =>
          if ctx_is_done s
          then Some (mkState (now s) (parent s) (userID s) true (bg s)
                             (MReturn 0 (Some too_long)))
          else None
      | MReturn _ _ => None
      end
  | EvSelectResp =>
      (* [respch] is unbuffered: the receive goes through only when the
         goroutine stands at its send, and completes that send *)
      match mn s, bg s with
      | MSelect, BSend r =>
          Some (mkState (now s) (parent s) (userID s) true BExit
                        (MReturn (value r) (err r)))
      | _, _ => None
      end
  end.

Fixpoint run (sched : list event) (s : state) : option state :=
  match sched with
  | [] => Some s
  | e :: sched' =>
      match step e s with
      | Some s' => run sched' s'
      | None => None
      end
  end.

(** ** What holds in every state of the race *)

Record RaceInv (ctx : option Z) (s : state) : Prop := mkRaceInv {
  race_parent : parent s = ctx;
  race_resp : forall r, bg s = BSend r ->
                r = mkResponse (fst (ret slow)) (snd (ret slow));
  race_slept : forall r, bg s = BSend r -> (sleep_ms slow <= now s)%Z;
  race_select : mn s = MSelect -> cancelled s = false /\ bg s <> BExit;
  race_return : forall v e, mn s = MReturn v e ->
                  (v, e) = ret slow \/ (v, e) = (0%Z, Some too_long)
}.

End Race.

(** ** The goroutine and the caller *)

Section Goroutine.

Variable slow : SlowCall.

(** The goroutine has gone past its send only if the caller took the
    response, and the caller has returned without that only by the
    timeout. *)
Record LeakInv (s : state) : Prop := mkLeakInv {
  leak_exit : bg s = BExit ->
                mn s = MReturn (fst (ret slow)) (snd (ret slow)) /\
                (sleep_ms slow <= now s)%Z;
  leak_timeout : forall v e, mn s = MReturn v e -> bg s <> BExit ->
                   (v, e) = (0%Z, Some too_long) /\ (deadline s <= now s)%Z;
  leak_cancel : mn s = MSelect -> cancelled s = false
}.

End Goroutine.

(** The same frame with another value of the argument [userID]. *)
Definition with_user (uid : Z) (s : state) : state :=
  mkState (now s) (parent s) uid (cancelled s) (bg s) (mn s).

(** What the caller has got so far: nothing yet, or the returned pair. *)
Definition result (s : state) : option (Z * option string) :=
  match mn s with
  | MSelect => None
  | MReturn v e => Some (v, e)
  end.

(** ** Concrete schedules *)

Definition end_of (slow : SlowCall) (sched : list event) (s : state) : state :=
  match run slow sched s with
  | Some s' => s'
  | None => s
  end.

(** [MainCtx]: [context.Background()], [userId := 10]; the slow call
    returns after its 150ms, within the budget. *)
Definition in_time : list event := [EvTick 150%Z; EvSlowReturns].

Definition in_time_end : state :=
  Eval vm_compute in
    end_of fetchThirdPartyStuffWhichCanBeSlow in_time (fetchUserData None 10%Z).

(** A caller whose own context is done after 100ms: the [select] takes
    the timeout, 50ms later the slow call returns. *)
Definition too_late : list event :=
  [EvTick 100%Z; EvSelectDone; EvTick 50%Z; EvSlowReturns].

Definition too_late_end : state :=
  Eval vm_compute in
    end_of fetchThirdPartyStuffWhichCanBeSlow too_late (fetchUserData (Some 100%Z) 10%Z).

(** The same caller, seen when its context has just become done. *)
Definition expired_end : state :=
  Eval vm_compute in
    end_of fetchThirdPartyStuffWhichCanBeSlow [EvTick 100%Z]
           (fetchUserData (Some 100%Z) 10%Z).

(** [MainCtx] again, with the [select] having taken the response. *)
Definition answered_end : state :=
  Eval vm_compute in
    end_of fetchThirdPartyStuffWhichCanBeSlow (in_time ++ [EvSelectResp])
           (fetchUserData None 10%Z).

End Context.

(* ===================================================================== *)
(** * Properties of the batch run of learning/scraper.go *)
(* ===================================================================== *)

Module ScraperProofs.
Import Scraper.

(** ** The pool seen around one goroutine *)

Lemma total_app w l1 l2 : total w (l1 ++ l2) = total w l1 + total w l2.
Proof. induction l1 as [|g l1 IH]; simpl; [done | rewrite IH; lia]. Qed.

Lemma count_app f l1 l2 : count f (l1 ++ l2) = count f l1 + count f l2.
Proof. apply total_app. Qed.

Lemma count_cons f g l :
  count f (g :: l) = (if f (g_pc g) then 1 else 0) + count f l.
Proof. reflexivity. Qed.

Lemma collect_app {A} (f : goroutine -> list A) l1 l2 :
  collect f (l1 ++ l2) = collect f l1 ++ collect f l2.
Proof.
  induction l1 as [|g l1 IH]; simpl; [done | by rewrite IH, app_assoc].
Qed.

Lemma lookup_split (gs : list goroutine) i g :
  gs !! i = Some g ->
  exists l1 l2, gs = l1 ++ g :: l2 /\ length l1 = i /\
                forall g', <[i := g']> gs = l1 ++ g' :: l2.
Proof.
  intros Hi. exists (take i gs), (drop (S i) gs).
  pose proof (lookup_lt_Some _ _ _ Hi) as Hlt.
  split; [by rewrite take_drop_middle |].
  split; [rewrite length_take; lia |].
  intros g'. by apply insert_take_drop.
Qed.

Lemma total_insert w (gs : list goroutine) i g g' :
  gs !! i = Some g ->
  total w (<[i := g']> gs) + w (g_pc g) = total w gs + w (g_pc g').
Proof.
  intros Hi. destruct (lookup_split _ _ _ Hi) as (l1 & l2 & -> & _ & Hins).
  rewrite Hins, !total_app. simpl. lia.
Qed.

Lemma count_insert f (gs : list goroutine) i g g' :
  gs !! i = Some g ->
  count f (<[i := g']> gs) + (if f (g_pc g) then 1 else 0)
  = count f gs + (if f (g_pc g') then 1 else 0).
Proof. apply total_insert. Qed.

Lemma fmap_url_insert (gs : list goroutine) i g p :
  gs !! i = Some g -> map g_url (<[i := mkG (g_url g) p]> gs) = map g_url gs.
Proof.
  intros Hi. destruct (lookup_split _ _ _ Hi) as (l1 & l2 & -> & _ & Hins).
  by rewrite Hins, !map_app.
Qed.

Lemma collect_insert_same {A} (f : goroutine -> list A) gs i g g' :
  gs !! i = Some g -> f g' = f g -> collect f (<[i := g']> gs) = collect f gs.
Proof.
  intros Hi Hf. destruct (lookup_split _ _ _ Hi) as (l1 & l2 & -> & _ & Hins).
  rewrite Hins, !collect_app. simpl. by rewrite Hf.
Qed.

Lemma collect_insert_new {A} (f : goroutine -> list A) gs i g g' x :
  gs !! i = Some g -> f g = [] -> f g' = [x] ->
  collect f (<[i := g']> gs) ≡ₚ collect f gs ++ [x].
Proof.
  intros Hi Hf Hf'. destruct (lookup_split _ _ _ Hi) as (l1 & l2 & -> & _ & Hins).
  rewrite Hins, !collect_app. simpl. rewrite Hf, Hf'. simpl.
  rewrite <- app_assoc. apply Permutation_app_head.
  change (x :: collect f l2) with ([x] ++ collect f l2).
  apply Permutation_app_comm.
Qed.

Lemma count_pos_lookup f (gs : list goroutine) i g :
  gs !! i = Some g -> f (g_pc g) = true -> 0 < count f gs.
Proof.
  intros Hi Hf. destruct (lookup_split _ _ _ Hi) as (l1 & l2 & -> & _ & _).
  rewrite count_app, count_cons, Hf. lia.
Qed.

Lemma outcomes_length_le gs : length (outcomes gs) <= length gs.
Proof.
  induction gs as [|g gs IH]; simpl; [done |].
  unfold outcomes in *; simpl. rewrite length_app.
  destruct (outcome (g_pc g)); simpl; lia.
Qed.

Lemma live_lookup (gs : list goroutine) :
  0 < count live gs -> exists i g, gs !! i = Some g /\ live (g_pc g) = true.
Proof.
  induction gs as [|g gs IH]; [unfold count; simpl; lia |].
  rewrite count_cons. destruct (live (g_pc g)) eqn:Hl.
  - intros _. by exists 0, g.
  - intros H. destruct IH as (i & g' & Hi & Hg'); [simpl in H; lia |].
    by exists (S i), g'.
Qed.

(** Either some goroutine is past the gate and not yet finished, or
    nobody holds a slot. *)
Lemma past_gate_or_free (gs : list goroutine) :
  (exists i g, gs !! i = Some g /\ live (g_pc g) = true /\ at_gate (g_pc g) = false)
  \/ count holding gs = 0.
Proof.
  induction gs as [|g gs IH]; [by right |].
  destruct (holding (g_pc g)) eqn:Hh.
  - left. exists 0, g. by destruct (g_pc g).
  - destruct IH as [(i & g' & Hi & Hg') | H0].
    + left. by exists (S i), g'.
    + right. rewrite count_cons, Hh. simpl. lia.
Qed.

Lemma outcomes_lt_length (gs : list goroutine) i g :
  gs !! i = Some g -> outcome (g_pc g) = None -> length (outcomes gs) < length gs.
Proof.
  intros Hi Hn. destruct (lookup_split _ _ _ Hi) as (l1 & l2 & -> & _ & _).
  unfold outcomes. rewrite collect_app, !length_app. simpl. rewrite Hn. simpl.
  pose proof (outcomes_length_le l1). pose proof (outcomes_length_le l2).
  unfold outcomes in *. lia.
Qed.

Lemma count_mono f h (gs : list goroutine) :
  (forall p, f p = true -> h p = true) -> count f gs <= count h gs.
Proof.
  intros Hfh. induction gs as [|g gs IH]; [done |].
  rewrite !count_cons. specialize (Hfh (g_pc g)).
  destruct (f (g_pc g)), (h (g_pc g));
    first [lia | by specialize (Hfh eq_refl)].
Qed.

Lemma all_exited (gs : list goroutine) :
  count live gs = 0 -> Forall (fun g => exists r, g_pc g = GExit r) gs.
Proof.
  induction gs as [|g gs IH]; [constructor |].
  rewrite count_cons. intros H. constructor.
  - destruct (g_pc g); simpl in H; try lia. by eexists.
  - apply IH. lia.
Qed.

Lemma outcome_elem (gs : list goroutine) i g r :
  gs !! i = Some g -> outcome (g_pc g) = Some r -> r ∈ outcomes gs.
Proof.
  intros Hi Hr. destruct (lookup_split _ _ _ Hi) as (l1 & l2 & -> & _ & _).
  unfold outcomes. rewrite collect_app. simpl. rewrite Hr. simpl.
  apply elem_of_app. right. by left.
Qed.

Lemma exited_outcomes_urls (gs : list goroutine) :
  Forall (fun g => exists r, g_pc g = GExit r) gs ->
  (forall i g r, gs !! i = Some g -> built (g_pc g) = Some r -> URL r = g_url g) ->
  map URL (outcomes gs) = map g_url gs.
Proof.
  induction gs as [|g gs IH]; intros Hex Hb; [done |].
  inversion Hex as [|? ? [r Hr] Hex']; subst.
  unfold outcomes in *. simpl. rewrite Hr. simpl. f_equal.
  - apply (Hb 0 g r); [done | by rewrite Hr].
  - apply IH; [done |]. intros i g' r' Hi. apply (Hb (S i) g' r'). done.
Qed.

Lemma exited_entered_urls (gs : list goroutine) :
  Forall (fun g => exists r, g_pc g = GExit r) gs ->
  entered_urls gs = map g_url gs.
Proof.
  induction gs as [|g gs IH]; intros Hex; [done |].
  inversion Hex as [|? ? [r Hr] Hex']; subst.
  unfold entered_urls in *. simpl. rewrite Hr. simpl. f_equal. by apply IH.
Qed.

Section Run.

Variable fetch : Executor.
Variable NumWorkers : Z.
Variable urls : list string.

Local Abbreviation step := (step fetch NumWorkers urls).
Local Abbreviation run := (run fetch NumWorkers urls).
Local Abbreviation fuel := (fuel urls).
Local Abbreviation Inv := (Inv fetch NumWorkers urls).
Local Abbreviation go_step := (go_step fetch NumWorkers urls).
Local Abbreviation main_step := (main_step NumWorkers urls).
Local Abbreviation handoff := (handoff NumWorkers).

(** ** Schedules *)

(** A property that holds initially and is kept by every step holds in
    every state a schedule leads to. *)
Lemma run_invariant (P : state -> Prop) :
  (forall e s s', P s -> step e s = Some s' -> P s') ->
  forall sched s s', P s -> run sched s = Some s' -> P s'.
Proof.
  intros Hstep sched. induction sched as [|e sched IH]; intros s s' HP Hrun;
    simpl in Hrun.
  - by inversion Hrun; subst.
  - destruct (step e s) as [s1|] eqn:He; [|done]. eauto.
Qed.

(** ** Every step uses up fuel *)

Lemma go_step_fuel i g s s' :
  gos s !! i = Some g -> go_step i g s = Some s' -> fuel s' < fuel s.
Proof.
  intros Hi Hstep. destruct s as [c m w sm rs cl gs cs]; simpl in *.
  destruct (lookup_split _ _ _ Hi) as (l1 & l2 & -> & _ & Hins).
  destruct g as [u p]. unfold go_step in Hstep; simpl in Hstep.
  destruct p; simpl in Hstep.
  - destruct (Z.of_nat sm <? NumWorkers)%Z; [|done].
    inversion Hstep; subst; clear Hstep. unfold Scraper.fuel; simpl.
    rewrite Hins, !total_app; simpl. lia.
  - inversion Hstep; subst; clear Hstep. unfold Scraper.fuel; simpl.
    rewrite Hins, !total_app; simpl. lia.
  - destruct (fetch i c u) as [d e]. inversion Hstep; subst; clear Hstep.
    unfold Scraper.fuel; simpl. rewrite Hins, !total_app; simpl. lia.
  - destruct cl; [done |]. destruct (length rs <? length urls); [|done].
    inversion Hstep; subst; clear Hstep. unfold Scraper.fuel; simpl.
    rewrite Hins, !total_app, length_app; simpl. lia.
  - destruct sm as [|n]; [done |]. inversion Hstep; subst; clear Hstep.
    unfold Scraper.fuel; simpl. rewrite Hins, !total_app; simpl. lia.
  - inversion Hstep; subst; clear Hstep. unfold Scraper.fuel; simpl.
    rewrite Hins, !total_app; simpl. lia.
  - done.
Qed.

Lemma main_step_fuel s s' : main_step s = Some s' -> fuel s' < fuel s.
Proof.
  intros Hstep. destruct s as [c m w sm rs cl gs cs].
  unfold Scraper.main_step in Hstep; simpl in Hstep.
  destruct m as [|rest| | |acc|fin|]; simpl in Hstep.
  - destruct (NumWorkers <? 0)%Z; inversion Hstep; subst;
      unfold Scraper.fuel; simpl; lia.
  - destruct rest as [|u rest]; inversion Hstep; subst;
      unfold Scraper.fuel; simpl; [lia |].
    rewrite total_app; simpl. lia.
  - destruct (w =? 0)%Z; inversion Hstep; subst. unfold Scraper.fuel; simpl; lia.
  - inversion Hstep; subst. unfold Scraper.fuel; simpl; lia.
  - destruct rs as [|r rs].
    + destruct cl; inversion Hstep; subst. unfold Scraper.fuel; simpl; lia.
    + inversion Hstep; subst. unfold Scraper.fuel; simpl; lia.
  - done.
  - done.
Qed.

Lemma handoff_fuel i j s s' : handoff i j s = Some s' -> fuel s' < fuel s.
Proof.
  unfold Scraper.handoff. intros Hstep.
  destruct (NumWorkers =? 0)%Z; [|done].
  destruct (gos s !! i) as [gi|] eqn:Hi; [|done].
  destruct (gos s !! j) as [gj|] eqn:Hj; [|done].
  destruct (g_pc gi) eqn:Hpi; try done.
  destruct (g_pc gj) eqn:Hpj; try done.
  inversion Hstep; subst; clear Hstep.
  assert (Hne : i <> j) by (intros ->; congruence).
  destruct s as [c m w sm rs cl gs cs]; simpl in *.
  unfold Scraper.fuel; simpl.
  assert (Hj' : <[i := mkG (g_url gi) GCall]> gs !! j = Some gj)
    by (by rewrite list_lookup_insert_ne).
  pose proof (total_insert gweight _ _ _ (mkG (g_url gj) (GDone r)) Hj') as H1.
  pose proof (total_insert gweight _ _ _ (mkG (g_url gi) GCall) Hi) as H2.
  rewrite Hpi in H2. rewrite Hpj in H1. simpl in *. lia.
Qed.

Lemma step_fuel e s s' : step e s = Some s' -> fuel s' < fuel s.
Proof.
  destruct e as [|i|i j|]; simpl.
  - apply main_step_fuel.
  - destruct (gos s !! i) as [g|] eqn:Hi; [|done]. by apply go_step_fuel.
  - apply handoff_fuel.
  - destruct (ctx_done s) eqn:Hc; [done |]. intros H; inversion H; subst.
    unfold Scraper.fuel; simpl. rewrite Hc. lia.
Qed.

Lemma run_fuel sched s s' :
  run sched s = Some s' -> length sched + fuel s' <= fuel s.
Proof.
  revert s. induction sched as [|e sched IH]; intros s Hrun; simpl in *.
  - inversion Hrun; subst. lia.
  - destruct (step e s) as [s1|] eqn:He; [|done].
    apply step_fuel in He. apply IH in Hrun. lia.
Qed.

Lemma returned_dec s : {returned s} + {~ returned s}.
Proof.
  unfold returned. destruct (main s); try (right; intros [fin H]; discriminate).
  left. by eexists.
Qed.

(** A property kept by every step, under which every state that has not
    returned can take a step, leads to a return. *)
Lemma returns_from (P : state -> Prop) :
  (forall e s s', P s -> step e s = Some s' -> P s') ->
  (forall s, P s -> ~ returned s -> exists e s', step e s = Some s') ->
  forall s, P s -> exists sched s', run sched s = Some s' /\ returned s'.
Proof.
  intros Hkeep Hprog s. remember (fuel s) as n eqn:Hn.
  revert s Hn. induction n as [n IH] using lt_wf_ind. intros s Hn HP.
  destruct (returned_dec s) as [Hr | Hr].
  - by exists [], s.
  - destruct (Hprog s HP Hr) as (e & s1 & He).
    pose proof (step_fuel e s s1 He) as Hlt.
    destruct (IH (fuel s1)) with (s := s1)
      as (sched & s' & Hrun & Hret); [lia | done | by eapply Hkeep |].
    exists (e :: sched), s'. simpl. by rewrite He.
Qed.

End Run.

Section Invariant.

Variable fetch : Executor.
Variable NumWorkers : Z.
Variable urls : list string.

Local Abbreviation step := (step fetch NumWorkers urls).
Local Abbreviation run := (run fetch NumWorkers urls).
Local Abbreviation Inv := (Inv fetch NumWorkers urls).
Local Abbreviation go_step := (go_step fetch NumWorkers urls).
Local Abbreviation main_step := (main_step NumWorkers urls).
Local Abbreviation handoff := (handoff NumWorkers).
Local Abbreviation built_ok := (built_ok fetch).

Lemma Inv_init c0 : (0 <= NumWorkers)%Z -> Inv (init c0).
Proof.
  intros HN. constructor; simpl; done.
Qed.

Lemma built_ok_insert (gs : list goroutine) i g p :
  (forall j g0, gs !! j = Some g0 -> built_ok j g0) ->
  gs !! i = Some g ->
  built_ok i (mkG (g_url g) p) ->
  forall j g0, <[i := mkG (g_url g) p]> gs !! j = Some g0 -> built_ok j g0.
Proof.
  intros Hall Hi Hnew j g0 Hj.
  apply list_lookup_insert_Some in Hj as [(-> & <- & _) | (_ & Hj)]; eauto.
Qed.

Lemma main_step_Inv s s' : Inv s -> main_step s = Some s' -> Inv s'.
Proof.
  intros [Hnp Hu Hw Hs Hc Ho Hcl Hj Hr Hb Hcs] Hstep.
  destruct s as [c m w sm rs cl gs cs]; simpl in *.
  unfold Scraper.main_step in Hstep; simpl in Hstep.
  destruct m as [|rest| | |acc|fin|]; simpl in *.
  - destruct (NumWorkers <? 0)%Z eqn:HN; [lia |].
    inversion Hstep; subst; clear Hstep. by constructor.
  - destruct rest as [|u rest]; inversion Hstep; subst; clear Hstep.
    + by constructor.
    + constructor; simpl; try done.
      * by rewrite map_app, <- app_assoc.
      * rewrite count_app, count_cons. simpl. unfold count at 3. simpl. lia.
      * rewrite count_app, count_cons. simpl. unfold count at 3. simpl. lia.
      * unfold outcomes in *. rewrite collect_app. simpl. by rewrite app_nil_r.
      * intros i g Hi. apply lookup_app_Some in Hi as [Hi | [_ Hi]]; [eauto |].
        apply list_lookup_singleton_Some in Hi as [_ <-].
        intros r Hr0. done.
      * unfold entered_urls in *. rewrite collect_app. simpl. by rewrite app_nil_r.
  - destruct (w =? 0)%Z eqn:Hw0; inversion Hstep; subst; clear Hstep.
    constructor; simpl; try done. intros _. lia.
  - inversion Hstep; subst; clear Hstep. by constructor.
  - destruct rs as [|r rs].
    + destruct cl; inversion Hstep; subst; clear Hstep. by constructor.
    + inversion Hstep; subst; clear Hstep. constructor; simpl; try done.
      by rewrite <- app_assoc.
  - done.
  - done.
Qed.

Lemma go_step_Inv i g s s' :
  Inv s -> gos s !! i = Some g -> go_step i g s = Some s' -> Inv s'.
Proof.
  intros [Hnp Hu Hw Hs Hc Ho Hcl Hj Hr Hb Hcs] Hi Hstep.
  destruct s as [c m w sm rs cl gs cs]; simpl in *.
  destruct g as [u p]. unfold Scraper.go_step in Hstep; simpl in Hstep.
  pose proof (fun p' => count_insert live _ _ _ (mkG u p') Hi) as Hlive.
  pose proof (fun p' => count_insert holding _ _ _ (mkG u p') Hi) as Hhold.
  pose proof (fun p' => fmap_url_insert gs i (mkG u p) p' Hi) as Hurl.
  pose proof (Hb i _ Hi) as Hbi.
  assert (Hsame : forall p', outcome p' = outcome p ->
            outcomes (<[i := mkG u p']> gs) = outcomes gs).
  { intros p' Hp. unfold outcomes. eapply collect_insert_same; [exact Hi |].
    simpl. by rewrite Hp. }
  assert (Hent : forall p', entered p' = entered p ->
            entered_urls (<[i := mkG u p']> gs) = entered_urls gs).
  { intros p' Hp. unfold entered_urls. eapply collect_insert_same; [exact Hi |].
    simpl. by rewrite Hp. }
  assert (Hbuilt : forall p', built_ok i (mkG u p') ->
            forall j g0, <[i := mkG u p']> gs !! j = Some g0 -> built_ok j g0).
  { intros p' Hp. by apply (built_ok_insert gs i (mkG u p)). }
  destruct p; simpl in *.
  - (* semaphore <- struct{}{} *)
    destruct (Z.of_nat sm <? NumWorkers)%Z eqn:HN; [|done].
    inversion Hstep; subst; clear Hstep.
    specialize (Hlive GCall); specialize (Hhold GCall); simpl in *.
    constructor; simpl;
      rewrite ?Hurl, ?(Hsame GCall eq_refl), ?(Hent GCall eq_refl);
      try done; try lia; try (apply Hbuilt; exact Hbi).
    + intros Hjo. specialize (Hj Hjo). lia.
  - (* the call of scraper.Scrape *)
    inversion Hstep; subst; clear Hstep.
    specialize (Hlive GFetch); specialize (Hhold GFetch); simpl in *.
    constructor; simpl; rewrite ?Hurl, ?(Hsame GFetch eq_refl);
      try done; try lia; try (apply Hbuilt; exact Hbi).
    + intros Hjo. specialize (Hj Hjo). lia.
    + unfold entered_urls. rewrite map_app. simpl.
      rewrite (collect_insert_new _ gs i (mkG u GCall) _ u Hi); [|done..].
      by apply Permutation_app_tail.
  - (* scraper.Scrape returns *)
    destruct (fetch i c u) as [d e] eqn:Hf.
    inversion Hstep; subst; clear Hstep.
    specialize (Hlive (GSend (mkResult u d e)));
      specialize (Hhold (GSend (mkResult u d e))); simpl in *.
    constructor; simpl;
      rewrite ?Hurl, ?(Hsame (GSend (mkResult u d e)) eq_refl),
              ?(Hent (GSend (mkResult u d e)) eq_refl);
      try done; try lia; try (apply Hbuilt; exact Hbi).
    + intros Hjo. specialize (Hj Hjo). lia.
    + apply Hbuilt. intros r Hr0. simpl in Hr0. inversion Hr0; subst; simpl.
      split; [done |]. exists c. by rewrite Hf.
  - (* results <- Result{...} *)
    destruct cl; [done |]. destruct (length rs <? length urls); [|done].
    inversion Hstep; subst; clear Hstep.
    specialize (Hlive (GRelease r)); specialize (Hhold (GRelease r)); simpl in *.
    constructor; simpl; rewrite ?Hurl, ?(Hent (GRelease r) eq_refl);
      try done; try lia; try (apply Hbuilt; exact Hbi).
    + unfold outcomes.
      rewrite (collect_insert_new _ gs i (mkG u (GSend r)) _ r Hi); [|done..].
      rewrite app_assoc. by apply Permutation_app_tail.
    + intros Hjo. specialize (Hj Hjo). lia.
    + intros fin ->. done.
  - (* deferred <-semaphore *)
    destruct sm as [|n]; [done |]. inversion Hstep; subst; clear Hstep.
    specialize (Hlive (GDone r)); specialize (Hhold (GDone r)); simpl in *.
    constructor; simpl;
      rewrite ?Hurl, ?(Hsame (GDone r) eq_refl), ?(Hent (GDone r) eq_refl);
      try done; try lia; try (apply Hbuilt; exact Hbi).
    intros Hjo. specialize (Hj Hjo). lia.
  - (* deferred wg.Done() *)
    inversion Hstep; subst; clear Hstep.
    specialize (Hlive (GExit r)); specialize (Hhold (GExit r)); simpl in *.
    constructor; simpl;
      rewrite ?Hurl, ?(Hsame (GExit r) eq_refl), ?(Hent (GExit r) eq_refl);
      try done; try lia; try (apply Hbuilt; exact Hbi).
    intros Hjo. specialize (Hj Hjo). lia.
  - done.
Qed.

(** Under the invariant nobody stands at [<-semaphore] while the channel
    is unbuffered, so the rendezvous never takes place. *)
Lemma handoff_Inv i j s : Inv s -> handoff i j s = None.
Proof.
  intros [Hnp Hu Hw Hs Hc Ho Hcl Hj Hr Hb Hcs]. unfold Scraper.handoff.
  destruct (NumWorkers =? 0)%Z eqn:HN; [|done].
  destruct (gos s !! i) as [gi|] eqn:Hi; [|done].
  destruct (gos s !! j) as [gj|] eqn:Hgj; [|done].
  destruct (g_pc gi) eqn:Hpi; try done.
  destruct (g_pc gj) eqn:Hpj; try done.
  assert (0 < count holding (gos s))
    by (eapply count_pos_lookup; [exact Hgj | by rewrite Hpj]).
  lia.
Qed.

Lemma step_Inv e s s' : Inv s -> step e s = Some s' -> Inv s'.
Proof.
  intros HI. destruct e as [|i|i j|]; simpl.
  - by apply main_step_Inv.
  - destruct (gos s !! i) as [g|] eqn:Hi; [|done]. by apply go_step_Inv.
  - by rewrite handoff_Inv.
  - destruct (ctx_done s); [done |]. intros H; inversion H; subst; clear H.
    destruct HI. by constructor.
Qed.

Lemma run_Inv sched c0 s :
  (0 <= NumWorkers)%Z -> run sched (init c0) = Some s -> Inv s.
Proof.
  intros HN. apply (run_invariant fetch NumWorkers urls Inv).
  - intros e s1 s2. apply step_Inv.
  - by apply Inv_init.
Qed.

(** ** No deadlock, and every run comes to its return *)

Lemma pool_size s : Inv s -> length (gos s) <= length urls.
Proof.
  intros HI. rewrite <- (inv_urls _ _ _ _ HI), length_app, length_map. lia.
Qed.

Lemma past_gate_enabled s i g :
  Inv s -> main s = MWait -> gos s !! i = Some g ->
  live (g_pc g) = true -> at_gate (g_pc g) = false ->
  exists s', go_step i g s = Some s'.
Proof.
  intros HI Hm Hi Hl Hg. unfold Scraper.go_step.
  destruct (g_pc g) eqn:Hp; try done; eauto.
  - destruct (fetch i (ctx_done s) (g_url g)); eauto.
  - pose proof (inv_closed _ _ _ _ HI) as Hcl. rewrite Hm in Hcl. simpl in Hcl.
    rewrite Hcl.
    pose proof (Permutation_length (inv_out _ _ _ _ HI)) as Hlen.
    rewrite Hm in Hlen. simpl in Hlen.
    assert (length (outcomes (gos s)) < length (gos s))
      by (eapply outcomes_lt_length; [exact Hi | by rewrite Hp]).
    pose proof (pool_size s HI).
    destruct (Nat.ltb_spec (length (results s)) (length urls)); [eauto | lia].
  - assert (0 < count holding (gos s))
      by (eapply count_pos_lookup; [exact Hi | by rewrite Hp]).
    rewrite <- (inv_sem _ _ _ _ HI) in H. destruct (sem s); [lia | eauto].
Qed.

Lemma progress s :
  (1 <= NumWorkers)%Z -> Inv s -> ~ returned s -> exists e s', step e s = Some s'.
Proof.
  intros HN HI Hnr. destruct (main s) eqn:Hm.
  - exists EvMain. simpl. unfold Scraper.main_step. rewrite Hm.
    destruct (NumWorkers <? 0)%Z; eauto.
  - exists EvMain. simpl. unfold Scraper.main_step. rewrite Hm.
    destruct rest; eauto.
  - destruct (Z.eqb_spec (wg s) 0) as [Hw | Hw].
    + exists EvMain. simpl. unfold Scraper.main_step. rewrite Hm.
      rewrite Hw. simpl. eauto.
    + pose proof (inv_wg _ _ _ _ HI) as Hwg.
      destruct (past_gate_or_free (gos s)) as [(i & g & Hi & Hl & Hg) | Hfree].
      * destruct (past_gate_enabled s i g HI Hm Hi Hl Hg) as [s' Hs'].
        exists (EvGo i), s'. simpl. by rewrite Hi.
      * destruct (live_lookup (gos s)) as (i & g & Hi & Hl); [lia |].
        destruct (at_gate (g_pc g)) eqn:Hg.
        -- exists (EvGo i). simpl. rewrite Hi. unfold Scraper.go_step.
           destruct (g_pc g); try done.
           rewrite (inv_sem _ _ _ _ HI), Hfree.
           destruct (Z.ltb_spec (Z.of_nat 0) NumWorkers); [eauto | lia].
        -- destruct (past_gate_enabled s i g HI Hm Hi Hl Hg) as [s' Hs'].
           exists (EvGo i), s'. simpl. by rewrite Hi.
  - exists EvMain. simpl. unfold Scraper.main_step. rewrite Hm. eauto.
  - exists EvMain. simpl. unfold Scraper.main_step. rewrite Hm.
    destruct (results s) eqn:Hr; [|eauto].
    rewrite (inv_closed _ _ _ _ HI), Hm. simpl. eauto.
  - exfalso. apply Hnr. by exists final.
  - by destruct (inv_nopanic _ _ _ _ HI).
Qed.

Lemma eventually_returns s :
  (1 <= NumWorkers)%Z -> Inv s ->
  exists sched s', run sched s = Some s' /\ returned s'.
Proof.
  intros HN. apply (returns_from fetch NumWorkers urls Inv).
  - intros e s1 s2. apply step_Inv.
  - intros s1. by apply progress.
Qed.

(** ** What a returned batch looks like *)

Lemma returned_pool s final :
  Inv s -> main s = MReturn final ->
  map g_url (gos s) = urls /\
  Forall (fun g => exists r, g_pc g = GExit r) (gos s) /\
  final ≡ₚ outcomes (gos s) /\
  map URL final ≡ₚ urls /\
  length final = length urls /\
  map fst (calls s) ≡ₚ urls.
Proof.
  intros HI Hm.
  pose proof (inv_urls _ _ _ _ HI) as Hu. rewrite Hm in Hu. simpl in Hu.
  rewrite app_nil_r in Hu.
  pose proof (inv_joined _ _ _ _ HI) as Hj. rewrite Hm in Hj.
  specialize (Hj eq_refl). apply all_exited in Hj.
  pose proof (inv_out _ _ _ _ HI) as Ho. rewrite Hm in Ho. simpl in Ho.
  rewrite (inv_ret _ _ _ _ HI final Hm), app_nil_r in Ho.
  assert (Hurls : map URL (outcomes (gos s)) = urls).
  { rewrite <- Hu. apply exited_outcomes_urls; [done |].
    intros i g r Hi Hr. by destruct (inv_built _ _ _ _ HI i g Hi r Hr). }
  assert (Hperm : map URL final ≡ₚ urls) by (by rewrite Ho, Hurls).
  repeat split; try done.
  - by rewrite <- (length_map URL), Hperm.
  - rewrite (inv_calls _ _ _ _ HI), exited_entered_urls; [by rewrite Hu | done].
Qed.

Lemma returned_outcome s final i u :
  Inv s -> main s = MReturn final -> urls !! i = Some u ->
  exists c r, r ∈ final /\ URL r = u /\ (Data r, Err r) = fetch i c u.
Proof.
  intros HI Hm Hi.
  destruct (returned_pool s final HI Hm) as (Hu & Hex & Ho & _).
  rewrite <- Hu in Hi. apply list_lookup_fmap_Some in Hi as (g & -> & Hg).
  pose proof (proj1 (Forall_lookup _ _) Hex i g Hg) as [r Hr].
  destruct (inv_built _ _ _ _ HI i g Hg r) as (Hurl & c & Hc);
    [by rewrite Hr |].
  exists c, r. split; [|done].
  rewrite Ho. eapply outcome_elem; [exact Hg | by rewrite Hr].
Qed.

End Invariant.

(** ** A context that is done before the batch starts *)

Section Cancelled.

Variable fetch : Executor.
Variable NumWorkers : Z.
Variable urls : list string.

Local Abbreviation step := (step fetch NumWorkers urls).
Local Abbreviation run := (run fetch NumWorkers urls).
Local Abbreviation DoneInv := (DoneInv fetch).

Lemma DoneInv_init : DoneInv (init true).
Proof. constructor; simpl; [done | constructor | done]. Qed.

Lemma DoneInv_set_pc s i g p :
  DoneInv s -> gos s !! i = Some g ->
  (forall r, built p = Some r -> (Data r, Err r) = fetch i true (g_url g)) ->
  forall j g0 r, <[i := mkG (g_url g) p]> (gos s) !! j = Some g0 ->
    built (g_pc g0) = Some r -> (Data r, Err r) = fetch j true (g_url g0).
Proof.
  intros [_ _ Hb] Hi Hnew j g0 r Hj Hr.
  apply list_lookup_insert_Some in Hj as [(-> & <- & _) | (_ & Hj)]; eauto.
Qed.

Lemma step_DoneInv e s s' : DoneInv s -> step e s = Some s' -> DoneInv s'.
Proof.
  intros HD. pose proof HD as [Hc Hcs Hb]. destruct e as [|i|i j|]; simpl.
  - unfold main_step. intros Hstep.
    destruct (main s) as [|rest| | |acc|fin|]; simpl in Hstep.
    + destruct (NumWorkers <? 0)%Z; inversion Hstep; subst; by constructor.
    + destruct rest; inversion Hstep; subst; constructor; simpl; try done.
      intros i g r Hi. apply lookup_app_Some in Hi as [Hi | [_ Hi]]; [eauto |].
      apply list_lookup_singleton_Some in Hi as [_ <-]. done.
    + destruct (wg s =? 0)%Z; inversion Hstep; subst; by constructor.
    + inversion Hstep; subst; by constructor.
    + destruct (results s); [destruct (results_closed s) |];
        inversion Hstep; subst; by constructor.
    + done.
    + done.
  - destruct (gos s !! i) as [g|] eqn:Hi; [|done]. unfold go_step.
    pose proof (Hb i g) as Hbi. specialize (Hbi) with (1 := Hi).
    intros Hstep. destruct (g_pc g) eqn:Hp; simpl in Hstep.
    + destruct (Z.of_nat (sem s) <? NumWorkers)%Z; inversion Hstep; subst.
      constructor; simpl; try done. by apply DoneInv_set_pc.
    + inversion Hstep; subst. constructor; simpl; try done.
      * apply Forall_app. split; [done |]. by repeat constructor.
      * by apply DoneInv_set_pc.
    + rewrite Hc in Hstep. destruct (fetch i true (g_url g)) as [d e] eqn:Hf.
      inversion Hstep; subst. constructor; simpl; try done.
      apply DoneInv_set_pc; try done. intros r Hr. by inversion Hr; subst.
    + destruct (results_closed s); [done |].
      destruct (length (results s) <? length urls); inversion Hstep; subst.
      constructor; simpl; try done. by apply DoneInv_set_pc.
    + destruct (sem s); inversion Hstep; subst.
      constructor; simpl; try done. by apply DoneInv_set_pc.
    + inversion Hstep; subst. constructor; simpl; try done.
      by apply DoneInv_set_pc.
    + done.
  - unfold handoff. destruct (NumWorkers =? 0)%Z; [|done].
    destruct (gos s !! i) as [gi|] eqn:Hi; [|done].
    destruct (gos s !! j) as [gj|] eqn:Hj; [|done].
    destruct (g_pc gi) eqn:Hpi; try done.
    destruct (g_pc gj) eqn:Hpj; try done.
    intros Hstep; inversion Hstep; subst; clear Hstep.
    assert (Hne : i <> j) by (intros ->; congruence).
    constructor; simpl; try done.
    intros k g0 r0 Hk Hr0.
    apply list_lookup_insert_Some in Hk as [(E & <- & _) | (_ & Hk)].
    + simpl in *. rewrite <- E. apply (Hb j gj r0 Hj). by rewrite Hpj.
    + apply list_lookup_insert_Some in Hk as [(E & <- & _) | (_ & Hk)];
        [done | eauto].
  - by rewrite Hc.
Qed.

Lemma run_DoneInv sched s : run sched (init true) = Some s -> DoneInv s.
Proof.
  apply (run_invariant fetch NumWorkers urls DoneInv).
  - intros e s1 s2. apply step_DoneInv.
  - apply DoneInv_init.
Qed.

End Cancelled.

(** ** The cancellation signal in the middle of a batch *)

Section Signal.

Variable fetch : Executor.
Variable NumWorkers : Z.
Variable urls : list string.

Local Abbreviation step := (step fetch NumWorkers urls).
Local Abbreviation run := (run fetch NumWorkers urls).
Local Abbreviation LiveInv := (LiveInv fetch).
Local Abbreviation Since := (Since fetch).
Local Abbreviation fresh := (fresh fetch).

Lemma run_app sched1 sched2 s :
  run (sched1 ++ sched2) s = run sched1 s ≫= run sched2.
Proof.
  revert s. induction sched1 as [|e sched1 IH]; intros s; simpl; [done |].
  destruct (step e s); simpl; [apply IH | done].
Qed.

Lemma kept_refl gs : kept gs gs.
Proof. intros i g r Hi Hr. by exists g. Qed.

Lemma kept_trans gs1 gs2 gs3 : kept gs1 gs2 -> kept gs2 gs3 -> kept gs1 gs3.
Proof.
  intros H12 H23 i g r Hi Hr.
  destruct (H12 i g r Hi Hr) as (g2 & Hi2 & Hu2 & Hr2).
  destruct (H23 i g2 r Hi2 Hr2) as (g3 & Hi3 & Hu3 & Hr3).
  exists g3. split; [done |]. split; [congruence | done].
Qed.

Lemma fresh_refl c gs : fresh c gs gs.
Proof. intros i g r Hi Hr. exists g. split; [done |]. split; [done |]. by left. Qed.

(** Spawning a goroutine. *)
Lemma kept_snoc (gs : list goroutine) g : kept gs (gs ++ [g]).
Proof.
  intros i g0 r Hi Hr. exists g0. split; [|done].
  apply lookup_app_Some. by left.
Qed.

Lemma fresh_snoc c (gs : list goroutine) u : fresh c gs (gs ++ [mkG u GAcquire]).
Proof.
  intros i g' r Hi Hr. apply lookup_app_Some in Hi as [Hi | [_ Hi]].
  - exists g'. split; [done |]. split; [done |]. by left.
  - apply list_lookup_singleton_Some in Hi as [_ <-]. done.
Qed.

(** Moving goroutine [i] to another program point. *)
Lemma kept_insert (gs : list goroutine) i g p :
  gs !! i = Some g ->
  (forall r, built (g_pc g) = Some r -> built p = Some r) ->
  kept gs (<[i := mkG (g_url g) p]> gs).
Proof.
  intros Hi Hp j g0 r Hj Hr. destruct (decide (j = i)) as [-> | Hne].
  - rewrite Hi in Hj. inversion Hj; subst g0.
    exists (mkG (g_url g) p). split; [|split; [done | by apply Hp]].
    apply list_lookup_insert_Some. left. split; [done |]. split; [done |].
    by eapply lookup_lt_Some.
  - exists g0. split; [|done].
    apply list_lookup_insert_Some. right. by split.
Qed.

Lemma fresh_insert c (gs : list goroutine) i g p :
  gs !! i = Some g ->
  (forall r, built p = Some r ->
     built (g_pc g) = Some r \/
     (built (g_pc g) = None /\ (Data r, Err r) = fetch i c (g_url g))) ->
  fresh c gs (<[i := mkG (g_url g) p]> gs).
Proof.
  intros Hi Hp j g0 r Hj Hr.
  apply list_lookup_insert_Some in Hj as [(-> & <- & _) | (_ & Hj)].
  - exists g. split; [done |]. split; [done |]. by apply Hp.
  - exists g0. split; [done |]. split; [done |]. by left.
Qed.

(** What one step does to the pool, to the log of executor calls and to
    the context. *)
Lemma step_effect e s s' :
  step e s = Some s' ->
  kept (gos s) (gos s') /\
  fresh (ctx_done s) (gos s) (gos s') /\
  (calls s' = calls s \/ exists u, calls s' = calls s ++ [(u, ctx_done s)]) /\
  ((e = EvCancel /\ ctx_done s = false /\ ctx_done s' = true) \/
   (e <> EvCancel /\ ctx_done s' = ctx_done s)).
Proof.
  destruct e as [|i|i j|]; simpl.
  - unfold main_step. intros Hstep.
    destruct (main s) as [|rest| | |acc|fin|]; simpl in Hstep.
    + destruct (NumWorkers <? 0)%Z; inversion Hstep; subst; simpl;
        (split; [apply kept_refl |]; split; [apply fresh_refl |];
         split; [by left | by right]).
    + destruct rest; inversion Hstep; subst; simpl.
      * split; [apply kept_refl |]. split; [apply fresh_refl |].
        split; [by left | by right].
      * split; [apply kept_snoc |]. split; [apply fresh_snoc |].
        split; [by left | by right].
    + destruct (wg s =? 0)%Z; inversion Hstep; subst; simpl.
      split; [apply kept_refl |]. split; [apply fresh_refl |].
      split; [by left | by right].
    + inversion Hstep; subst; simpl.
      split; [apply kept_refl |]. split; [apply fresh_refl |].
      split; [by left | by right].
    + destruct (results s); [destruct (results_closed s) |];
        inversion Hstep; subst; simpl;
        (split; [apply kept_refl |]; split; [apply fresh_refl |];
         split; [by left | by right]).
    + done.
    + done.
  - destruct (gos s !! i) as [g|] eqn:Hi; [|done]. unfold go_step.
    intros Hstep. destruct (g_pc g) eqn:Hp; simpl in Hstep.
    + destruct (Z.of_nat (sem s) <? NumWorkers)%Z; inversion Hstep; subst; simpl.
      split; [apply kept_insert; [done | by rewrite Hp] |].
      split; [by apply fresh_insert |]. split; [by left | by right].
    + inversion Hstep; subst; simpl.
      split; [apply kept_insert; [done | by rewrite Hp] |].
      split; [by apply fresh_insert |]. split; [right; by eexists | by right].
    + destruct (fetch i (ctx_done s) (g_url g)) as [d e] eqn:Hf.
      inversion Hstep; subst; simpl.
      split; [apply kept_insert; [done | by rewrite Hp] |].
      split; [|split; [by left | by right]].
      apply fresh_insert; [done |]. intros r0 Hr0. right. rewrite Hp.
      split; [done |]. simpl in Hr0. inversion Hr0; subst. by rewrite Hf.
    + destruct (results_closed s); [done |].
      destruct (length (results s) <? length urls); inversion Hstep; subst; simpl.
      split; [apply kept_insert; [done | by rewrite Hp] |].
      split; [|split; [by left | by right]].
      apply fresh_insert; [done |]. intros r0 Hr0. left. by rewrite Hp.
    + destruct (sem s); inversion Hstep; subst; simpl.
      split; [apply kept_insert; [done | by rewrite Hp] |].
      split; [|split; [by left | by right]].
      apply fresh_insert; [done |]. intros r0 Hr0. left. by rewrite Hp.
    + inversion Hstep; subst; simpl.
      split; [apply kept_insert; [done | by rewrite Hp] |].
      split; [|split; [by left | by right]].
      apply fresh_insert; [done |]. intros r0 Hr0. left. by rewrite Hp.
    + done.
  - unfold handoff. destruct (NumWorkers =? 0)%Z; [|done].
    destruct (gos s !! i) as [gi|] eqn:Hi; [|done].
    destruct (gos s !! j) as [gj|] eqn:Hj; [|done].
    destruct (g_pc gi) eqn:Hpi; try done.
    destruct (g_pc gj) eqn:Hpj; try done.
    intros Hstep; inversion Hstep; subst; clear Hstep.
    assert (Hne : i <> j) by (intros ->; congruence).
    assert (Hj' : <[i := mkG (g_url gi) GCall]> (gos s) !! j = Some gj)
      by (by rewrite list_lookup_insert_ne).
    simpl. split; [|split; [|split; [by left | by right]]].
    + eapply kept_trans.
      * apply (kept_insert (gos s) i gi GCall Hi). by rewrite Hpi.
      * apply kept_insert; [done | by rewrite Hpj].
    + intros k g0 r0 Hk Hr0.
      apply list_lookup_insert_Some in Hk as [(-> & <- & _) | (_ & Hk)].
      * exists gj. split; [done |]. split; [done |]. left. by rewrite Hpj.
      * apply list_lookup_insert_Some in Hk as [(-> & <- & _) | (_ & Hk)];
          [done |].
        exists g0. split; [done |]. split; [done |]. by left.
  - destruct (ctx_done s) eqn:Hc; [done |].
    intros Hstep; inversion Hstep; subst; simpl.
    split; [apply kept_refl |]. split; [apply fresh_refl |].
    split; [by left | by left].
Qed.

(** The context of the batch is done exactly when it was done on entry
    or the signal has fired since: no step of the caller or of a task
    touches it. *)
Lemma run_ctx_done sched s0 s :
  run sched s0 = Some s ->
  (ctx_done s = true <-> ctx_done s0 = true \/ EvCancel ∈ sched).
Proof.
  revert s0. induction sched as [|e sched IH]; intros s0 Hrun; simpl in Hrun.
  - inversion Hrun; subst. split; [by left |].
    intros [H | H]; [done | by apply elem_of_nil in H].
  - destruct (step e s0) as [s1|] eqn:He; [|done].
    rewrite (IH s1 Hrun).
    destruct (step_effect e s0 s1 He) as (_ & _ & _ & [(-> & H0 & H1) | (Hne & H1)]).
    + split; [intros _; right; by left | intros _; by left].
    + rewrite H1. split.
      * intros [H | H]; [by left | right; by right].
      * intros [H | H]; [by left |].
        apply elem_of_cons in H as [E | H]; [by symmetry in E | by right].
Qed.

Lemma LiveInv_init c0 : LiveInv (init c0).
Proof. constructor; simpl; [done | constructor]. Qed.

Lemma step_LiveInv e s s' : LiveInv s -> step e s = Some s' -> LiveInv s'.
Proof.
  intros [Hb Hcs] Hstep.
  destruct (step_effect e s s' Hstep) as (_ & Hfresh & Hcalls & Hctx).
  assert (Hmono : ctx_done s = true -> ctx_done s' = true).
  { destruct Hctx as [(_ & _ & H) | (_ & H)]; [done | by rewrite H]. }
  constructor.
  - intros i g' r Hi Hr.
    destruct (Hfresh i g' r Hi Hr) as (g & Hg & Hu & [Hold | [_ Hnew]]).
    + destruct (Hb i g r Hg Hold) as (c & Hc & Hd). exists c.
      rewrite Hu. split; [done |]. intros Hct. by apply Hmono, Hd.
    + exists (ctx_done s). rewrite Hu. split; [done | exact Hmono].
  - assert (Hold : Forall (fun uc => snd uc = true -> ctx_done s' = true) (calls s)).
    { eapply Forall_impl; [exact Hcs |]. intros uc H Ht. by apply Hmono, H. }
    destruct Hcalls as [-> | [u ->]]; [done |].
    apply Forall_app. split; [done |]. repeat constructor. exact Hmono.
Qed.

Lemma run_LiveInv sched c0 s : run sched (init c0) = Some s -> LiveInv s.
Proof.
  apply (run_invariant fetch NumWorkers urls LiveInv).
  - intros e s1 s2. apply step_LiveInv.
  - apply LiveInv_init.
Qed.

Lemma Since_refl s : Since s s.
Proof.
  constructor.
  - apply kept_refl.
  - done.
  - exists []. split; [by rewrite app_nil_r | by constructor].
  - intros _ i g r Hi Hr Hun. rewrite (Hun g Hi) in Hr. done.
Qed.

Lemma step_Since e s0 s s' : Since s0 s -> step e s = Some s' -> Since s0 s'.
Proof.
  intros [Hk Hc (new & Hcs & Hnew) Hb] Hstep.
  destruct (step_effect e s s' Hstep) as (Hkept & Hfresh & Hcalls & Hctx).
  assert (Hmono : ctx_done s = true -> ctx_done s' = true).
  { destruct Hctx as [(_ & _ & H) | (_ & H)]; [done | by rewrite H]. }
  constructor.
  - by eapply kept_trans.
  - intros H0. by apply Hmono, Hc.
  - destruct Hcalls as [-> | [u ->]].
    + by exists new.
    + exists (new ++ [(u, ctx_done s)]). split; [by rewrite Hcs, app_assoc |].
      intros H0. apply Forall_app. split; [by apply Hnew |].
      repeat constructor. simpl. by apply Hc.
  - intros H0 i g' r Hi Hr Hun.
    destruct (Hfresh i g' r Hi Hr) as (g & Hg & Hu & [Hold | [_ Hget]]).
    + rewrite Hu. by apply (Hb H0 i g r Hg Hold).
    + rewrite Hu. by rewrite (Hc H0) in Hget.
Qed.

Lemma run_Since sched s0 s : run sched s0 = Some s -> Since s0 s.
Proof.
  intros Hrun.
  apply (run_invariant fetch NumWorkers urls (Since s0)
           (fun e s1 s2 => step_Since e s0 s1 s2) sched s0 s (Since_refl s0) Hrun).
Qed.

End Signal.

(** ** A limit below one *)

Section LowLimit.

Variable fetch : Executor.
Variable NumWorkers : Z.
Variable urls : list string.
Hypothesis low : (NumWorkers < 1)%Z.

Local Abbreviation step := (step fetch NumWorkers urls).
Local Abbreviation run := (run fetch NumWorkers urls).
Local Abbreviation GateInv := (GateInv NumWorkers urls).

Lemma GateInv_init c0 : GateInv (init c0).
Proof. constructor; simpl; try done. intros _. split; [done | by left]. Qed.

Lemma step_GateInv e s s' : GateInv s -> step e s = Some s' -> GateInv s'.
Proof.
  intros HG. pose proof HG as [Hcs Hsm Hp Hw Hj Hu Hn Hpa].
  destruct e as [|i|i j|]; simpl.
  - unfold main_step. intros Hstep.
    destruct (main s) as [|rest| | |acc|fin|] eqn:Hm; simpl in *.
    + destruct (Z.ltb_spec NumWorkers 0) as [Hlt | Hge];
        inversion Hstep; subst; clear Hstep.
      * destruct (Hn Hlt) as [Hg _].
        constructor; simpl; try done. intros _. split; [done | by right].
      * constructor; simpl; try done; try lia.
        intros _. by apply Hu.
    + assert (HN : (0 <= NumWorkers)%Z).
      { destruct (Z.ltb_spec NumWorkers 0) as [Hlt|]; [|done].
        by destruct (Hn Hlt) as [_ [? | ?]]. }
      specialize (Hu ltac:(done)).
      destruct rest as [|u rest]; inversion Hstep; subst; clear Hstep.
      * constructor; simpl; try done; lia.
      * constructor; simpl; try done; try lia.
        -- apply Forall_app. split; [done |]. by repeat constructor.
        -- rewrite length_app. simpl. lia.
        -- intros _. by rewrite map_app, <- app_assoc.
    + assert (HN : (0 <= NumWorkers)%Z).
      { destruct (Z.ltb_spec NumWorkers 0) as [Hlt|]; [|done].
        by destruct (Hn Hlt) as [_ [? | ?]]. }
      destruct (Z.eqb_spec (wg s) 0) as [Hw0|]; inversion Hstep; subst; clear Hstep.
      constructor; simpl; try done; try (intros; lia);
        try (intros _; by apply Hu).
      intros _. rewrite Hw0 in Hw. destruct (gos s); [done | simpl in Hw; lia].
    + assert (HN : (0 <= NumWorkers)%Z).
      { destruct (Z.ltb_spec NumWorkers 0) as [Hlt|]; [|done].
        by destruct (Hn Hlt) as [_ [? | ?]]. }
      inversion Hstep; subst; clear Hstep.
      constructor; simpl; try done; try (intros; lia);
        try (intros _; by apply Hu).
    + assert (HN : (0 <= NumWorkers)%Z).
      { destruct (Z.ltb_spec NumWorkers 0) as [Hlt|]; [|done].
        by destruct (Hn Hlt) as [_ [? | ?]]. }
      destruct (results s); [destruct (results_closed s) |];
        inversion Hstep; subst; clear Hstep;
        constructor; simpl; try done; try (intros; lia);
        try (intros _; by apply Hu).
    + done.
    + done.
  - destruct (gos s !! i) as [g|] eqn:Hi; [|done].
    pose proof (proj1 (Forall_lookup _ _) Hp i g Hi) as Hg.
    unfold go_step. rewrite Hg, Hsm.
    destruct (Z.ltb_spec (Z.of_nat 0) NumWorkers); [lia | done].
  - unfold handoff. destruct (NumWorkers =? 0)%Z; [|done].
    destruct (gos s !! i) as [gi|] eqn:Hi; [|done].
    destruct (gos s !! j) as [gj|] eqn:Hgj; [|done].
    pose proof (proj1 (Forall_lookup _ _) Hp j gj Hgj) as Hg.
    rewrite Hg. by destruct (g_pc gi).
  - destruct (ctx_done s); [done |]. intros H; inversion H; subst; clear H.
    by constructor.
Qed.

Lemma run_GateInv sched c0 s : run sched (init c0) = Some s -> GateInv s.
Proof.
  apply (run_invariant fetch NumWorkers urls GateInv).
  - intros e s1 s2. apply step_GateInv.
  - apply GateInv_init.
Qed.

(** With keys to fetch, such a batch never returns. *)
Lemma GateInv_no_return s : GateInv s -> urls <> [] -> ~ returned s.
Proof.
  intros [Hcs Hsm Hp Hw Hj Hu Hn Hpa] Hne [fin Hm].
  rewrite Hm in *. simpl in *.
  rewrite (Hj eq_refl) in Hu. simpl in Hu. apply Hne. symmetry. by apply Hu.
Qed.

End LowLimit.

(** ** No key at all *)

Section NoKeys.

Variable fetch : Executor.
Variable NumWorkers : Z.
Hypothesis nonneg : (0 <= NumWorkers)%Z.

Local Abbreviation step := (step fetch NumWorkers []).
Local Abbreviation run := (run fetch NumWorkers []).

Lemma EmptyInv_init c0 : EmptyInv (init c0).
Proof. by constructor. Qed.

Lemma step_EmptyInv e s s' : EmptyInv s -> step e s = Some s' -> EmptyInv s'.
Proof.
  intros HE. pose proof HE as [Hp Hcs Hw Hr Hc Hcl Hnp Hsp].
  destruct e as [|i|i j|]; simpl.
  - unfold main_step. intros Hstep.
    destruct (main s) as [|rest| | |acc|fin|] eqn:Hm; simpl in *.
    + destruct (Z.ltb_spec NumWorkers 0); [lia |].
      inversion Hstep; subst; clear Hstep. constructor; simpl; try done.
      by intros rest [= <-].
    + rewrite (Hsp rest eq_refl) in Hstep.
      inversion Hstep; subst; clear Hstep. by constructor.
    + destruct (wg s =? 0)%Z; inversion Hstep; subst; clear Hstep.
      by constructor.
    + inversion Hstep; subst; clear Hstep. by constructor.
    + rewrite Hr in Hstep. destruct (results_closed s) eqn:Hrc;
        inversion Hstep; subst; clear Hstep. by constructor.
    + done.
    + done.
  - by rewrite Hp.
  - unfold handoff. rewrite Hp. by destruct (NumWorkers =? 0)%Z.
  - destruct (ctx_done s); [done |]. intros H; inversion H; subst; clear H.
    by constructor.
Qed.

Lemma run_EmptyInv sched c0 s : run sched (init c0) = Some s -> EmptyInv s.
Proof.
  apply (run_invariant fetch NumWorkers [] EmptyInv).
  - intros e s1 s2. apply step_EmptyInv.
  - apply EmptyInv_init.
Qed.

(** The caller is never blocked. *)
Lemma EmptyInv_main_enabled s :
  EmptyInv s -> ~ returned s -> exists s', step EvMain s = Some s'.
Proof.
  intros [Hp Hcs Hw Hr Hc Hcl Hnp Hsp] Hnr. simpl. unfold main_step.
  destruct (main s) as [|rest| | |acc|fin|] eqn:Hm; simpl in *.
  - destruct (NumWorkers <? 0)%Z; eauto.
  - destruct rest; eauto.
  - rewrite Hw. simpl. eauto.
  - eauto.
  - rewrite Hr, Hcl. eauto.
  - destruct Hnr. by exists fin.
  - done.
Qed.

End NoKeys.

(** ** The batch operation [ConcurrentScraper.Scrape] *)



(** C2. For every limit N >= 1 and every list of keys, in every state a
    run can reach, at most N tasks are inside the executor's
    [Scraper.Scrape]; a task is inside only while it holds a slot of the
    gate, at most N slots are held, and while N are held a task that
    stands at the gate cannot move. *)
Theorem Scrape_at_most_N_inside (fetch : Executor) (NumWorkers : Z)
    (urls : list string) (c0 : bool) (sched : list event) (s : state) :
  (1 <= NumWorkers)%Z ->
  run fetch NumWorkers urls sched (init c0) = Some s ->
  (Z.of_nat (count in_executor (gos s)) <= NumWorkers)%Z /\
  count in_executor (gos s) <= count holding (gos s) /\
  (Z.of_nat (count holding (gos s)) <= NumWorkers)%Z /\
  forall i g, gos s !! i = Some g -> g_pc g = GAcquire ->
    Z.of_nat (count holding (gos s)) = NumWorkers ->
    step fetch NumWorkers urls (EvGo i) s = None /\
    forall j, step fetch NumWorkers urls (EvHandoff i j) s = None.
Proof.
  intros HN Hrun.
  assert (HI : Inv fetch NumWorkers urls s) by (eapply run_Inv; [lia | exact Hrun]).
  pose proof (inv_sem _ _ _ _ HI) as Hs. pose proof (inv_cap _ _ _ _ HI) as Hc.
  assert (Hle : count in_executor (gos s) <= count holding (gos s))
    by (apply count_mono; by intros []).
  split; [lia |]. split; [exact Hle |]. split; [lia |].
  intros i g Hi Hp Hfull. split.
  - simpl. rewrite Hi. unfold go_step. rewrite Hp.
    destruct (Z.ltb_spec (Z.of_nat (sem s)) NumWorkers); [lia | done].
  - intros j. simpl. by apply (handoff_Inv fetch NumWorkers urls).
Qed.

Lemma Scrape_at_most_N_inside_witness :
  (1 <= 2)%Z /\
  run polite_fetch 2 ["a"; "b"]%string two_inside (init false)
    = Some two_inside_end /\
  count in_executor (gos two_inside_end) = 2 /\
  (Z.of_nat (count in_executor (gos two_inside_end)) <= 2)%Z.
Proof.
  assert (H1 : (1 <= 2)%Z) by lia.
  assert (H2 : run polite_fetch 2 ["a"; "b"]%string two_inside (init false)
               = Some two_inside_end) by reflexivity.
  split; [exact H1 |]. split; [exact H2 |]. split; [reflexivity |].
  exact (proj1 (Scrape_at_most_N_inside _ _ _ _ _ _ H1 H2)).
Defined.






(** C6, as stated, fails.  Under limit 0 and one key no failure is
    surfaced: the caller creates both channels, spawns the task for ["a"]
    and waits; the task stands at the gate, nothing but a cancellation can
    happen any more, and no run ever panics or returns. *)
Lemma Scrape_limit_zero_spawns_and_blocks :
  run polite_fetch 0 ["a"]%string one_spawned (init false) = Some one_spawned_end /\
  gos one_spawned_end = [mkG "a" GAcquire] /\
  main one_spawned_end = MWait /\
  (forall e, e <> EvCancel ->
     step polite_fetch 0 ["a"]%string e one_spawned_end = None) /\
  forall sched s,
    run polite_fetch 0 ["a"]%string sched (init false) = Some s ->
    main s <> MPanic /\ ~ returned s.
Proof.
  split; [reflexivity |]. split; [reflexivity |]. split; [reflexivity |]. split.
  - intros [|[|i]|[|i] [|j]|] He; try reflexivity. done.
  - intros sched s Hrun.
    assert (HG : GateInv 0 ["a"]%string s)
      by (eapply run_GateInv; [lia | exact Hrun]).
    split.
    + intros Hp. pose proof (gate_panic _ _ _ HG Hp). lia.
    + by apply (GateInv_no_return 0 ["a"]%string).
Qed.

(** C6, amended.  With a limit below one no executor call is ever made
    and no error value is produced: every spawned task stays at the gate
    and, unless the key list is empty, the call never returns.  A negative
    limit makes the call panic while it creates the gate, before any task
    is spawned; limit 0 does not fail at all. *)
Theorem Scrape_limit_below_one_never_fetches (fetch : Executor)
    (NumWorkers : Z) (urls : list string) (c0 : bool) (sched : list event)
    (s : state) :
  (NumWorkers < 1)%Z ->
  run fetch NumWorkers urls sched (init c0) = Some s ->
  calls s = [] /\
  Forall (fun g => g_pc g = GAcquire) (gos s) /\
  (urls <> [] -> ~ returned s) /\
  ((NumWorkers < 0)%Z ->
     gos s = [] /\ (main s = MInit \/ main s = MPanic) /\
     step fetch NumWorkers urls EvMain (init c0) = Some (set_main MPanic (init c0))) /\
  (NumWorkers = 0%Z -> main s <> MPanic).
Proof.
  intros HN Hrun.
  assert (HG : GateInv NumWorkers urls s)
    by (eapply run_GateInv; [exact HN | exact Hrun]).
  split; [exact (gate_calls _ _ _ HG) |].
  split; [exact (gate_pool _ _ _ HG) |].
  split; [exact (GateInv_no_return NumWorkers urls s HG) |].
  split.
  - intros Hlt. destruct (gate_neg _ _ _ HG Hlt) as [Hg Hm].
    split; [done |]. split; [done |].
    simpl. unfold main_step. simpl.
    by destruct (Z.ltb_spec NumWorkers 0); [|lia].
  - intros -> Hp. pose proof (gate_panic _ _ _ HG Hp). lia.
Qed.

Lemma Scrape_limit_below_one_never_fetches_witness :
  (0 < 1)%Z /\
  run polite_fetch 0 ["a"]%string one_spawned (init false) = Some one_spawned_end /\
  calls one_spawned_end = [] /\
  Forall (fun g => g_pc g = GAcquire) (gos one_spawned_end).
Proof.
  assert (H1 : (0 < 1)%Z) by lia.
  assert (H2 : run polite_fetch 0 ["a"]%string one_spawned (init false)
               = Some one_spawned_end) by reflexivity.
  split; [exact H1 |]. split; [exact H2 |].
  destruct (Scrape_limit_below_one_never_fetches _ _ _ _ _ _ H1 H2)
    as (Hc & Hp & _).
  split; [exact Hc | exact Hp].
Defined.

(** C10, as stated, fails.  The limit is an [int]; with limit -1 and no
    key, [make(chan struct{}, c.NumWorkers)] panics, and no run of the
    call returns anything. *)
Lemma Scrape_no_keys_negative_limit_panics :
  run polite_fetch (-1) [] [EvMain] (init false) = Some panicked /\
  main panicked = MPanic /\
  forall sched s,
    run polite_fetch (-1) [] sched (init false) = Some s -> ~ returned s.
Proof.
  split; [reflexivity |]. split; [reflexivity |].
  intros sched s Hrun [fin Hm].
  assert (HG : GateInv (-1) [] s) by (eapply run_GateInv; [lia | exact Hrun]).
  destruct (gate_neg _ _ _ HG) as [_ [H | H]]; [lia | congruence..].
Qed.

(** C10, amended.  For the empty list of keys and every limit that is not
    negative, [Scrape] never spawns a task and never enters the executor,
    its caller is never blocked, every run can be continued to the
    return, and what is returned is the empty list. *)
Theorem Scrape_no_keys (fetch : Executor) (NumWorkers : Z) (c0 : bool)
    (sched : list event) (s : state) :
  (0 <= NumWorkers)%Z ->
  run fetch NumWorkers [] sched (init c0) = Some s ->
  calls s = [] /\ gos s = [] /\
  (forall final, main s = MReturn final -> final = []) /\
  (~ returned s -> exists s', step fetch NumWorkers [] EvMain s = Some s') /\
  exists sched' s',
    run fetch NumWorkers [] sched' s = Some s' /\ main s' = MReturn [].
Proof.
  intros HN Hrun.
  assert (HE : EmptyInv s) by (eapply run_EmptyInv; [exact HN | exact Hrun]).
  split; [exact (empty_calls _ HE) |].
  split; [exact (empty_pool _ HE) |].
  split.
  { intros final Hm. pose proof (empty_collected _ HE) as Hc.
    by rewrite Hm in Hc. }
  split; [by apply EmptyInv_main_enabled |].
  destruct (returns_from fetch NumWorkers [] EmptyInv) with (s := s)
    as (sched' & s' & Hrun' & [fin Hm]).
  - intros e s1 s2. by apply step_EmptyInv.
  - intros s1 H1 H2. destruct (EmptyInv_main_enabled fetch NumWorkers s1 H1 H2)
      as [s2 Hs2]. by exists EvMain, s2.
  - exact HE.
  - exists sched', s'. split; [exact Hrun' |].
    assert (HE' : EmptyInv s').
    { eapply (run_invariant fetch NumWorkers [] EmptyInv);
        [| exact HE | exact Hrun'].
      intros e s1 s2. by apply step_EmptyInv. }
    pose proof (empty_collected _ HE') as Hc. rewrite Hm in Hc. simpl in Hc.
    by rewrite Hm, Hc.
Qed.

Lemma Scrape_no_keys_witness :
  (0 <= 0)%Z /\
  run polite_fetch 0 [] nobody (init false) = Some nobody_end /\
  main nobody_end = MReturn [] /\
  calls nobody_end = [] /\ gos nobody_end = [].
Proof.
  assert (H1 : (0 <= 0)%Z) by lia.
  assert (H2 : run polite_fetch 0 [] nobody (init false) = Some nobody_end)
    by reflexivity.
  split; [exact H1 |]. split; [exact H2 |]. split; [reflexivity |].
  destruct (Scrape_no_keys _ _ _ _ _ H1 H2) as (Hc & Hg & _).
  split; [exact Hc | exact Hg].
Defined.

End ScraperProofs.

(* ===================================================================== *)
(** * Properties of main.go *)
(* ===================================================================== *)

Module MainPkgProofs.
Import MainPkg.

(** What [main] prints. *)
Example main_prints : main = "foobar@gmail.com"%string.
Proof. reflexivity. Qed.

(** C8. For every [User] value [u] and every string [e],
    [updateEmail(u, e)] sets the email field to [e] and leaves the name and
    the age as they were; afterwards both [Email] accessors return [e]. *)
Theorem updateEmail_sets_email_only (u : User) (e : string) :
  email (updateEmail u e) = e /\
  name (updateEmail u e) = name u /\
  age (updateEmail u e) = age u /\
  Email (updateEmail u e) = e /\
  Email_ptr (updateEmail u e) = e.
Proof. by destruct u. Qed.

End MainPkgProofs.

(* ===================================================================== *)
(** * Properties of the timeout race of learning/context.go *)
(* ===================================================================== *)

Module ContextProofs.
Import Context.

Section Race.

Variable slow : SlowCall.
Variable ctx : option Z.

Local Abbreviation step := (step slow).
Local Abbreviation run := (run slow).
Local Abbreviation RaceInv := (RaceInv slow ctx).
Local Abbreviation LeakInv := (LeakInv slow).

Lemma race_invariant (P : state -> Prop) :
  (forall e s s', P s -> step e s = Some s' -> P s') ->
  forall sched s s', P s -> run sched s = Some s' -> P s'.
Proof.
  intros Hstep sched. induction sched as [|e sched IH]; intros s s' HP Hrun;
    simpl in Hrun.
  - by inversion Hrun; subst.
  - destruct (step e s) as [s1|] eqn:He; [|done]. eauto.
Qed.

Lemma RaceInv_init uid : RaceInv (fetchUserData ctx uid).
Proof. by constructor. Qed.

Lemma step_RaceInv e s s' : RaceInv s -> step e s = Some s' -> RaceInv s'.
Proof.
  intros [Hp Hr Hsl Hsel Hret]. destruct e as [dt| | |]; simpl.
  - destruct (Z.ltb_spec 0 dt); [|done]. intros H'; inversion H'; subst; clear H'.
    constructor; simpl; try done.
    intros r Hb. specialize (Hsl r Hb). lia.
  - destruct (bg s) eqn:Hb; try done.
    destruct (Z.leb_spec (sleep_ms slow) (now s)); [|done].
    intros H'; inversion H'; subst; clear H'.
    constructor; simpl; try done.
    + by intros r [= <-].
    + intros Hm. by destruct (Hsel Hm).
  - destruct (mn s) eqn:Hm; [|done]. destruct (ctx_is_done s); [|done].
    intros H'; inversion H'; subst; clear H'.
    constructor; simpl; try done.
    intros v e [= <- <-]. by right.
  - destruct (mn s) eqn:Hm; [|done]. destruct (bg s) as [|r|] eqn:Hb; try done.
    intros H'; inversion H'; subst; clear H'.
    constructor; simpl; try done.
    intros v e [= <- <-]. left. rewrite (Hr r eq_refl). simpl.
    by destruct (ret slow).
Qed.

Lemma run_RaceInv sched uid s :
  run sched (fetchUserData ctx uid) = Some s -> RaceInv s.
Proof.
  apply (race_invariant RaceInv).
  - intros e s1 s2. apply step_RaceInv.
  - apply RaceInv_init.
Qed.

(** ** The goroutine and the caller *)

Lemma LeakInv_init uid : LeakInv (fetchUserData ctx uid).
Proof. by constructor. Qed.

Lemma step_LeakInv e s s' :
  RaceInv s -> LeakInv s -> step e s = Some s' -> LeakInv s'.
Proof.
  intros [Hp Hr Hsl Hsel Hret] [Hex Hto Hca]. destruct e as [dt| | |]; simpl.
  - destruct (Z.ltb_spec 0 dt); [|done]. intros H'; inversion H'; subst; clear H'.
    constructor; simpl; try done.
    + intros Hb. destruct (Hex Hb). split; [done | lia].
    + intros v e Hm Hb. destruct (Hto v e Hm Hb) as [? Hd].
      split; [done |]. unfold deadline in *. simpl. lia.
  - destruct (bg s) eqn:Hb; try done.
    destruct (Z.leb_spec (sleep_ms slow) (now s)); [|done].
    intros H'; inversion H'; subst; clear H'.
    constructor; simpl; try done.
    intros v e Hm _. by apply Hto.
  - destruct (mn s) eqn:Hm; [|done].
    destruct (ctx_is_done s) eqn:Hd; [|done].
    intros H'; inversion H'; subst; clear H'.
    constructor; simpl; try done.
    + intros Hb. by destruct (Hex Hb).
    + intros v e [= <- <-] _. split; [done |].
      unfold ctx_is_done in Hd. rewrite (Hca eq_refl) in Hd. simpl in Hd.
      unfold deadline in *. simpl. by apply Z.leb_le.
  - destruct (mn s) eqn:Hm; [|done]. destruct (bg s) as [|r|] eqn:Hb; try done.
    intros H'; inversion H'; subst; clear H'.
    constructor; simpl; try done.
    intros _. rewrite (Hr r eq_refl). simpl. split; [done |].
    by apply (Hsl r).
Qed.

Lemma run_LeakInv sched uid s :
  run sched (fetchUserData ctx uid) = Some s -> RaceInv s /\ LeakInv s.
Proof.
  apply (race_invariant (fun s => RaceInv s /\ LeakInv s)).
  - intros e s1 s2 [H1 H2] He. split.
    + by eapply step_RaceInv.
    + by eapply step_LeakInv.
  - split; [apply RaceInv_init | apply LeakInv_init].
Qed.

(** Once the caller has returned, nobody receives from [respch]: a
    goroutine that stands at its send stays there. *)
Lemma step_abandoned e s s' v err r :
  mn s = MReturn v err -> bg s = BSend r -> step e s = Some s' ->
  mn s' = MReturn v err /\ bg s' = BSend r.
Proof.
  intros Hm Hb. destruct e as [dt| | |]; simpl; rewrite ?Hm, ?Hb; try done.
  destruct (0 <? dt)%Z; [|done]. intros H; by inversion H; subst.
Qed.

Lemma run_abandoned sched s s' v err r :
  mn s = MReturn v err -> bg s = BSend r -> run sched s = Some s' ->
  mn s' = MReturn v err /\ bg s' = BSend r.
Proof.
  intros Hm Hb.
  apply (race_invariant (fun s => mn s = MReturn v err /\ bg s = BSend r));
    [|done].
  intros e s1 s2 [H1 H2]. by apply step_abandoned.
Qed.

(** The argument [userID] is carried along and never looked at. *)
Lemma step_with_user e uid s :
  step e (with_user uid s) = with_user uid <$> step e s.
Proof.
  destruct e as [dt| | |]; simpl.
  - by destruct (0 <? dt)%Z.
  - destruct (bg s); try done. by destruct (sleep_ms slow <=? now s)%Z.
  - destruct (mn s); [|done]. unfold ctx_is_done, deadline. simpl.
    by destruct (cancelled s || _).
  - destruct (mn s); [|done]. by destruct (bg s).
Qed.

Lemma run_with_user sched uid s :
  run sched (with_user uid s) = with_user uid <$> run sched s.
Proof.
  revert s. induction sched as [|e sched IH]; intros s; simpl; [done |].
  rewrite step_with_user. destruct (step e s) as [s1|]; simpl; [apply IH | done].
Qed.

End Race.

(** ** The deadline-bound single fetch [fetchUserData] *)

(** C4. In every state a run of [fetchUserData] can reach: what the
    function has returned is either the pair of the underlying call,
    unchanged, or the timeout failure.  When the [select] runs with the
    call completed and the budget not yet spent, only the response case
    is ready and the function returns the call's value and error
    unchanged.  When it runs with the budget spent and the call still in
    flight, only the timeout case is ready and the function returns the
    timeout failure at that very moment, the goroutine being left where
    it is.  The budget ends at the caller's own deadline or after 200ms,
    whichever comes first.  Before that moment the timeout case is never
    ready, whatever the goroutine is doing, and while the call is in
    flight the response case is not ready either: the [select] waits.
    The call completes no earlier than its duration, with its own pair.
    So a return made before the budget has expired carries the call's
    pair and has let the goroutine finish; a return made while the
    goroutine has not got rid of its response is the timeout failure and
    is made no earlier than the budget's end. *)
Theorem fetchUserData_returns_first_to_finish (slow : SlowCall)
    (ctx : option Z) (uid : Z) (sched : list event) (s : state) :
  run slow sched (fetchUserData ctx uid) = Some s ->
  (forall v e, mn s = MReturn v e ->
     (v, e) = ret slow \/ (v, e) = (0%Z, Some too_long)) /\
  (mn s = MSelect -> forall r, bg s = BSend r -> (now s < deadline s)%Z ->
     step slow EvSelectDone s = None /\
     exists s', step slow EvSelectResp s = Some s' /\
                result s' = Some (ret slow)) /\
  (mn s = MSelect -> bg s = BSleep -> (deadline s <= now s)%Z ->
     step slow EvSelectResp s = None /\
     exists s', step slow EvSelectDone s = Some s' /\
                result s' = Some (0%Z, Some too_long) /\
                now s' = now s /\ bg s' = BSleep) /\
  deadline s = match ctx with Some d => Z.min d 200 | None => 200%Z end /\
  (mn s = MSelect -> (now s < deadline s)%Z ->
     step slow EvSelectDone s = None) /\
  (mn s = MSelect -> bg s = BSleep -> step slow EvSelectResp s = None) /\
  (bg s = BSleep -> (now s < sleep_ms slow)%Z ->
     step slow EvSlowReturns s = None) /\
  (forall r, bg s = BSend r ->
     (sleep_ms slow <= now s)%Z /\ (value r, err r) = ret slow) /\
  (forall v e, mn s = MReturn v e ->
     ((now s < deadline s)%Z -> (v, e) = ret slow /\ bg s = BExit) /\
     (bg s = BExit -> (v, e) = ret slow /\ (sleep_ms slow <= now s)%Z) /\
     (bg s <> BExit ->
        (v, e) = (0%Z, Some too_long) /\ (deadline s <= now s)%Z)).
Proof.
  intros Hrun. destruct (run_LeakInv slow ctx sched uid s Hrun) as [HI HL].
  split; [exact (race_return _ _ _ HI) |]. split; [|split].
  - intros Hm r Hb Hlt. destruct (race_select _ _ _ HI Hm) as [Hc _].
    simpl. rewrite Hm, Hb. unfold ctx_is_done. rewrite Hc. simpl.
    destruct (Z.leb_spec (deadline s) (now s)); [lia |].
    split; [done |]. eexists. split; [reflexivity |].
    unfold result. simpl. rewrite (race_resp _ _ _ HI r Hb). simpl.
    by destruct (ret slow).
  - intros Hm Hb Hle. simpl. rewrite Hm, Hb. unfold ctx_is_done.
    destruct (Z.leb_spec (deadline s) (now s)); [|lia].
    rewrite orb_true_r. split; [done |]. eexists. by split.
  - assert (Hexit : forall v e, mn s = MReturn v e -> bg s = BExit ->
                      (v, e) = ret slow /\ (sleep_ms slow <= now s)%Z).
    { intros v e Hm Hb. destruct (leak_exit _ _ HL Hb) as [Hm' Hsl].
      rewrite Hm in Hm'. inversion Hm'; subst. split; [|done].
      by destruct (ret slow). }
    split; [|split; [|split; [|split; [|split]]]].
    + unfold deadline, budget_ms. by rewrite (race_parent _ _ _ HI).
    + intros Hm Hlt. destruct (race_select _ _ _ HI Hm) as [Hc _].
      simpl. rewrite Hm. unfold ctx_is_done. rewrite Hc. simpl.
      by destruct (Z.leb_spec (deadline s) (now s)); [lia |].
    + intros Hm Hb. simpl. by rewrite Hm, Hb.
    + intros Hb Hlt. simpl. rewrite Hb.
      by destruct (Z.leb_spec (sleep_ms slow) (now s)); [lia |].
    + intros r Hb. split; [exact (race_slept _ _ _ HI r Hb) |].
      rewrite (race_resp _ _ _ HI r Hb). simpl. by destruct (ret slow).
    + intros v e Hm. split; [|split].
      * intros Hlt. destruct (bg s) eqn:Hb.
        -- destruct (leak_timeout _ _ HL v e Hm) as [_ ?]; [by rewrite Hb | lia].
        -- destruct (leak_timeout _ _ HL v e Hm) as [_ ?]; [by rewrite Hb | lia].
        -- split; [|done]. by destruct (Hexit v e Hm).
      * by apply Hexit.
      * by apply (leak_timeout _ _ HL v e Hm).
Qed.

Lemma fetchUserData_returns_first_to_finish_witness :
  run fetchThirdPartyStuffWhichCanBeSlow in_time (fetchUserData None 10)
    = Some in_time_end /\
  (now in_time_end < deadline in_time_end)%Z /\
  step fetchThirdPartyStuffWhichCanBeSlow EvSelectDone in_time_end = None /\
  exists s', step fetchThirdPartyStuffWhichCanBeSlow EvSelectResp in_time_end
               = Some s' /\
             result s' = Some (666%Z, None).
Proof.
  assert (H1 : run fetchThirdPartyStuffWhichCanBeSlow in_time (fetchUserData None 10)
               = Some in_time_end) by reflexivity.
  split; [exact H1 |]. split; [reflexivity |].
  destruct (fetchUserData_returns_first_to_finish _ _ _ _ _ H1) as (_ & H & _).
  exact (H eq_refl _ eq_refl eq_refl).
Defined.

(** C5, on the code.  The caller's context is done after 100ms; the
    [select] takes the timeout and [fetchUserData] returns.  When the slow
    call returns 50ms later, the goroutine stands at its send on the
    unbuffered [respch], where no receiver is left: whatever happens next,
    it stands there. *)
Theorem fetchUserData_abandoned_send_blocks_forever :
  run fetchThirdPartyStuffWhichCanBeSlow too_late (fetchUserData (Some 100%Z) 10)
    = Some too_late_end /\
  result too_late_end = Some (0%Z, Some too_long) /\
  bg too_late_end = BSend (mkResponse 666 None) /\
  forall sched s,
    run fetchThirdPartyStuffWhichCanBeSlow sched too_late_end = Some s ->
    bg s = BSend (mkResponse 666 None).
Proof.
  split; [reflexivity |]. split; [reflexivity |]. split; [reflexivity |].
  intros sched s Hrun.
  by destruct (run_abandoned _ sched too_late_end s _ _ _ eq_refl eq_refl Hrun).
Qed.

(** C9. For any two values of [userID], under the same context and the
    same schedule, [fetchUserData] is in the same position: either it has
    not returned in both runs, or it has returned the same pair of value
    and error in both. *)
Theorem fetchUserData_ignores_userID (slow : SlowCall) (ctx : option Z)
    (u1 u2 : Z) (sched : list event) :
  result <$> run slow sched (fetchUserData ctx u1)
  = result <$> run slow sched (fetchUserData ctx u2).
Proof.
  change (fetchUserData ctx u1) with (with_user u1 (fetchUserData ctx u2)).
  rewrite run_with_user.
  by destruct (run slow sched (fetchUserData ctx u2)).
Qed.

End ContextProofs.

(* ===================================================================== *)
(** * Further properties of learning/scraper.go *)
(* ===================================================================== *)

Module ScraperFacts.
Import Scraper ScraperProofs.

Lemma count_lt_length f (gs : list goroutine) i g :
  gs !! i = Some g -> f (g_pc g) = false -> count f gs < length gs.
Proof.
  intros Hi Hf. destruct (lookup_split _ _ _ Hi) as (l1 & l2 & -> & _ & _).
  rewrite count_app, count_cons, Hf, length_app. simpl.
  pose proof (count_mono f (fun _ => true) l1 (fun _ _ => eq_refl)).
  pose proof (count_mono f (fun _ => true) l2 (fun _ _ => eq_refl)).
  assert (Hall : forall l, count (fun _ => true) l = length l).
  { induction l as [|x l IH]; [done |]. rewrite count_cons, IH. simpl. lia. }
  rewrite !Hall in *. lia.
Qed.

Lemma entered_urls_within (gs : list goroutine) :
  entered_urls gs ⊆+ map g_url gs.
Proof.
  induction gs as [|g gs IH]; [done |].
  unfold entered_urls in *. simpl. destruct (entered (g_pc g)); simpl.
  - by apply submseteq_skip.
  - by apply submseteq_cons.
Qed.

Lemma outcome_source (gs : list goroutine) r :
  r ∈ outcomes gs ->
  exists i g, gs !! i = Some g /\ outcome (g_pc g) = Some r.
Proof.
  induction gs as [|g gs IH]; unfold outcomes in *; simpl.
  - intros H. by apply elem_of_nil in H.
  - intros H. apply elem_of_app in H as [H | H].
    + exists 0, g. split; [done |]. destruct (outcome (g_pc g)); simpl in H.
      * apply list_elem_of_singleton in H. by subst.
      * by apply elem_of_nil in H.
    + destruct (IH H) as (i & g' & Hi & Hg'). by exists (S i), g'.
Qed.

Lemma at_gate_all_live (gs : list goroutine) :
  Forall (fun g => g_pc g = GAcquire) gs -> count live gs = length gs.
Proof.
  induction 1 as [|g gs Hg _ IH]; [done |].
  rewrite count_cons, Hg, IH. simpl. lia.
Qed.

Section Dispatch.

Variable fetch : Executor.
Variable NumWorkers : Z.
Variable urls : list string.

Local Abbreviation step := (step fetch NumWorkers urls).
Local Abbreviation run := (run fetch NumWorkers urls).
Local Abbreviation Inv := (Inv fetch NumWorkers urls).

(** Every state a run reaches satisfies the invariant of its limit. *)
Lemma run_cases sched c0 s :
  run sched (init c0) = Some s ->
  ((0 <= NumWorkers)%Z /\ Inv s) \/
  ((NumWorkers < 0)%Z /\ GateInv NumWorkers urls s).
Proof.
  intros Hrun. destruct (Z.ltb_spec NumWorkers 0) as [Hlt | Hge].
  - right. split; [done |]. eapply run_GateInv; [lia | exact Hrun].
  - left. split; [done |]. by eapply run_Inv.
Qed.

Lemma sender_has_room s i g r :
  Inv s -> gos s !! i = Some g -> g_pc g = GSend r ->
  results_closed s = false /\ length (results s) < length urls.
Proof.
  intros HI Hi Hp.
  assert (Hlive : 0 < count live (gos s))
    by (eapply count_pos_lookup; [exact Hi | by rewrite Hp]).
  split.
  - rewrite (inv_closed _ _ _ _ HI).
    destruct (ranging (main s)) eqn:Hr; [|done].
    assert (Hj : joined (main s) = true) by (by destruct (main s)).
    pose proof (inv_joined _ _ _ _ HI Hj). lia.
  - pose proof (Permutation_length (inv_out _ _ _ _ HI)) as Hlen.
    rewrite length_app in Hlen.
    assert (length (outcomes (gos s)) < length (gos s))
      by (eapply outcomes_lt_length; [exact Hi | by rewrite Hp]).
    pose proof (pool_size fetch NumWorkers urls s HI). lia.
Qed.

End Dispatch.

(** ** The channels and the counter *)

(** X1. A task that stands at [results <- Result{...}] can always
    complete the send: the channel is not closed and its buffer, of
    capacity [len(urls)], has room, so the send neither blocks nor
    panics; the result is appended to the buffer. *)
Theorem results_send_never_blocks (fetch : Executor) (NumWorkers : Z)
    (urls : list string) (c0 : bool) (sched : list event) (s : state)
    (i : nat) (g : goroutine) (r : Result) :
  run fetch NumWorkers urls sched (init c0) = Some s ->
  gos s !! i = Some g -> g_pc g = GSend r ->
  results_closed s = false /\
  exists s', step fetch NumWorkers urls (EvGo i) s = Some s' /\
             results s' = results s ++ [r].
Proof.
  intros Hrun Hi Hp.
  destruct (run_cases _ _ _ _ _ _ Hrun) as [[HN HI] | [HN HG]].
  - destruct (sender_has_room _ _ _ s i g r HI Hi Hp) as [Hcl Hlen].
    split; [done |]. simpl. rewrite Hi. unfold go_step. rewrite Hp, Hcl.
    destruct (Nat.ltb_spec (length (results s)) (length urls)); [|lia].
    eexists. by split.
  - pose proof (proj1 (Forall_lookup _ _) (gate_pool _ _ _ HG) i g Hi) as Hg.
    simpl in Hg. congruence.
Qed.

Lemma results_send_never_blocks_witness :
  run polite_fetch 1 ["a"]%string one_sending (init false) = Some one_sending_end /\
  gos one_sending_end !! 0 = Some (mkG "a" (GSend (mkResult "a" [x6f; x6b] None))) /\
  exists s', step polite_fetch 1 ["a"]%string (EvGo 0) one_sending_end = Some s' /\
             results s' = [mkResult "a" [x6f; x6b] None].
Proof.
  assert (H1 : run polite_fetch 1 ["a"]%string one_sending (init false)
               = Some one_sending_end) by reflexivity.
  assert (H2 : gos one_sending_end !! 0
               = Some (mkG "a" (GSend (mkResult "a" [x6f; x6b] None))))
    by reflexivity.
  split; [exact H1 |]. split; [exact H2 |].
  exact (proj2 (results_send_never_blocks _ _ _ _ _ _ _ _ _ H1 H2 eq_refl)).
Defined.

(** X2. At every moment of every run, for every limit, the urls that
    have been handed to the executor form a sub-multiset of the submitted
    list: no key is fetched more often than it was submitted and no other
    url is ever fetched. *)
Theorem executor_calls_within_submitted (fetch : Executor) (NumWorkers : Z)
    (urls : list string) (c0 : bool) (sched : list event) (s : state) :
  run fetch NumWorkers urls sched (init c0) = Some s ->
  map fst (calls s) ⊆+ urls.
Proof.
  intros Hrun.
  destruct (run_cases _ _ _ _ _ _ Hrun) as [[HN HI] | [HN HG]].
  - rewrite (inv_calls _ _ _ _ HI), <- (inv_urls _ _ _ _ HI).
    apply submseteq_inserts_r, entered_urls_within.
  - rewrite (gate_calls _ _ _ HG). apply submseteq_nil_l.
Qed.

Lemma executor_calls_within_submitted_witness :
  run polite_fetch 1 ["a"]%string one_called (init true) = Some one_called_end /\
  map fst (calls one_called_end) = ["a"%string] /\
  map fst (calls one_called_end) ⊆+ ["a"%string].
Proof.
  assert (H1 : run polite_fetch 1 ["a"]%string one_called (init true)
               = Some one_called_end) by reflexivity.
  split; [exact H1 |]. split; [reflexivity |].
  exact (executor_calls_within_submitted _ _ _ _ _ _ H1).
Defined.

(** X3. When [Scrape] returns nothing is left behind: every slot of the
    semaphore has been given back, the WaitGroup counter is zero, the
    results channel is closed and drained, and every goroutine has run to
    its end. *)
Theorem return_leaves_nothing_behind (fetch : Executor) (NumWorkers : Z)
    (urls : list string) (c0 : bool) (sched : list event) (s : state) :
  run fetch NumWorkers urls sched (init c0) = Some s ->
  returned s ->
  sem s = 0 /\ wg s = 0%Z /\ results s = [] /\ results_closed s = true /\
  Forall (fun g => exists r, g_pc g = GExit r) (gos s).
Proof.
  intros Hrun [final Hm].
  destruct (run_cases _ _ _ _ _ _ Hrun) as [[HN HI] | [HN HG]].
  - pose proof (inv_joined _ _ _ _ HI) as Hj. rewrite Hm in Hj.
    specialize (Hj eq_refl).
    assert (Hh : count holding (gos s) <= count live (gos s))
      by (apply count_mono; by intros []).
    split; [rewrite (inv_sem _ _ _ _ HI); lia |].
    split; [rewrite (inv_wg _ _ _ _ HI); lia |].
    split; [exact (inv_ret _ _ _ _ HI final Hm) |].
    split; [by rewrite (inv_closed _ _ _ _ HI), Hm |].
    by apply all_exited.
  - destruct (gate_neg _ _ _ HG HN) as [_ [H | H]]; congruence.
Qed.

Lemma return_leaves_nothing_behind_witness :
  run polite_fetch 2 ["a"; "b"]%string two_in_turn (init false)
    = Some two_in_turn_end /\
  returned two_in_turn_end /\
  sem two_in_turn_end = 0 /\ wg two_in_turn_end = 0%Z.
Proof.
  assert (H1 : run polite_fetch 2 ["a"; "b"]%string two_in_turn (init false)
               = Some two_in_turn_end) by reflexivity.
  assert (H2 : returned two_in_turn_end) by (eexists; reflexivity).
  split; [exact H1 |]. split; [exact H2 |].
  destruct (return_leaves_nothing_behind _ _ _ _ _ _ H1 H2) as (Hs & Hw & _).
  split; [exact Hs | exact Hw].
Defined.

(** X4. The WaitGroup counter always equals the number of spawned tasks
    that have not yet run their [wg.Done()]; it is never negative, and it
    is zero only when every task has finished. *)
Theorem wg_counts_unfinished_tasks (fetch : Executor) (NumWorkers : Z)
    (urls : list string) (c0 : bool) (sched : list event) (s : state) :
  run fetch NumWorkers urls sched (init c0) = Some s ->
  wg s = Z.of_nat (count live (gos s)) /\
  (wg s = 0%Z -> Forall (fun g => exists r, g_pc g = GExit r) (gos s)).
Proof.
  intros Hrun.
  assert (Hwg : wg s = Z.of_nat (count live (gos s))).
  { destruct (run_cases _ _ _ _ _ _ Hrun) as [[HN HI] | [HN HG]].
    - exact (inv_wg _ _ _ _ HI).
    - rewrite (gate_wg _ _ _ HG), at_gate_all_live; [done |].
      exact (gate_pool _ _ _ HG). }
  split; [exact Hwg |]. intros H0. apply all_exited. lia.
Qed.

Lemma wg_counts_unfinished_tasks_witness :
  run (SimpleScraper fine_net) ScraperExec_workers ScraperExec_urls
      exec_spawned (init false) = Some exec_spawned_end /\
  wg exec_spawned_end = 3%Z /\
  wg exec_spawned_end = Z.of_nat (count live (gos exec_spawned_end)).
Proof.
  assert (H1 : run (SimpleScraper fine_net) ScraperExec_workers ScraperExec_urls
                   exec_spawned (init false) = Some exec_spawned_end)
    by reflexivity.
  split; [exact H1 |]. split; [reflexivity |].
  exact (proj1 (wg_counts_unfinished_tasks _ _ _ _ _ _ H1)).
Defined.

(** ** Admission and order *)

(** X5. When the limit is at least the number of keys, as in
    [ScraperExec] (five workers, three urls), the gate never makes a task
    wait: a task that stands at [semaphore <- struct{}{}] can always take
    its slot. *)
Theorem gate_is_open_when_limit_covers_keys (fetch : Executor)
    (NumWorkers : Z) (urls : list string) (c0 : bool) (sched : list event)
    (s : state) (i : nat) (g : goroutine) :
  (Z.of_nat (length urls) <= NumWorkers)%Z ->
  run fetch NumWorkers urls sched (init c0) = Some s ->
  gos s !! i = Some g -> g_pc g = GAcquire ->
  exists s', step fetch NumWorkers urls (EvGo i) s = Some s' /\
             gos s' !! i = Some (mkG (g_url g) GCall).
Proof.
  intros HN Hrun Hi Hp.
  assert (HI : Inv fetch NumWorkers urls s)
    by (eapply run_Inv; [lia | exact Hrun]).
  assert (count holding (gos s) < length (gos s))
    by (eapply count_lt_length; [exact Hi | by rewrite Hp]).
  pose proof (pool_size fetch NumWorkers urls s HI).
  simpl. rewrite Hi. unfold go_step. rewrite Hp, (inv_sem _ _ _ _ HI).
  destruct (Z.ltb_spec (Z.of_nat (count holding (gos s))) NumWorkers); [|lia].
  eexists. split; [reflexivity |]. simpl.
  apply list_lookup_insert_eq. by eapply lookup_lt_Some.
Qed.

Lemma gate_is_open_when_limit_covers_keys_witness :
  (Z.of_nat (length ScraperExec_urls) <= ScraperExec_workers)%Z /\
  run (SimpleScraper fine_net) ScraperExec_workers ScraperExec_urls
      exec_spawned (init false) = Some exec_spawned_end /\
  gos exec_spawned_end !! 2 = Some (mkG "https://github.com" GAcquire) /\
  exists s', step (SimpleScraper fine_net) ScraperExec_workers ScraperExec_urls
                  (EvGo 2) exec_spawned_end = Some s' /\
             gos s' !! 2 = Some (mkG "https://github.com" GCall).
Proof.
  assert (H0 : (Z.of_nat (length ScraperExec_urls) <= ScraperExec_workers)%Z)
    by (unfold ScraperExec_workers; simpl; lia).
  assert (H1 : run (SimpleScraper fine_net) ScraperExec_workers ScraperExec_urls
                   exec_spawned (init false) = Some exec_spawned_end)
    by reflexivity.
  assert (H2 : gos exec_spawned_end !! 2
               = Some (mkG "https://github.com" GAcquire)) by reflexivity.
  split; [exact H0 |]. split; [exact H1 |]. split; [exact H2 |].
  exact (gate_is_open_when_limit_covers_keys _ _ _ _ _ _ _ _ H0 H1 H2 eq_refl).
Defined.

(** Whatever can happen under a limit of at least one can happen, step
    for step, under any larger limit. *)
Lemma step_limit_mono (fetch : Executor) (urls : list string) (n N : Z) e s s' :
  (1 <= n)%Z -> (n <= N)%Z ->
  step fetch n urls e s = Some s' -> step fetch N urls e s = Some s'.
Proof.
  intros Hn HN. destruct e as [|i|i j|]; simpl.
  - unfold main_step. destruct (main s); try done.
    destruct (Z.ltb_spec n 0); [lia |]. by destruct (Z.ltb_spec N 0); [lia |].
  - destruct (gos s !! i) as [g|]; [|done]. unfold go_step.
    destruct (g_pc g); try done.
    destruct (Z.ltb_spec (Z.of_nat (sem s)) n); [|done].
    by destruct (Z.ltb_spec (Z.of_nat (sem s)) N); [|lia].
  - unfold handoff. by destruct (Z.eqb_spec n 0); [lia |].
  - done.
Qed.

Lemma run_limit_mono (fetch : Executor) (urls : list string) (n N : Z) sched s s' :
  (1 <= n)%Z -> (n <= N)%Z ->
  run fetch n urls sched s = Some s' -> run fetch N urls sched s = Some s'.
Proof.
  intros Hn HN. revert s. induction sched as [|e sched IH]; intros s; simpl;
    [done |].
  destruct (step fetch n urls e s) as [s1|] eqn:He; [|done].
  rewrite (step_limit_mono _ _ _ _ _ _ _ Hn HN He). apply IH.
Qed.

(** X6. Raising the limit takes no behaviour away: every run of a batch
    under a limit [n >= 1] is, step for step and with the same returned
    list, a run of the same batch under every limit [N >= n], and along
    it never more than [n] of the [N] slots are taken. *)
Theorem raising_the_limit_keeps_every_run (fetch : Executor)
    (urls : list string) (n N : Z) (c0 : bool) (sched : list event)
    (s : state) :
  (1 <= n)%Z -> (n <= N)%Z ->
  run fetch n urls sched (init c0) = Some s ->
  run fetch N urls sched (init c0) = Some s /\
  (Z.of_nat (sem s) <= n)%Z.
Proof.
  intros Hn HN Hrun. split.
  - by apply (run_limit_mono fetch urls n N).
  - assert (HI : Inv fetch n urls s) by (eapply run_Inv; [lia | exact Hrun]).
    exact (inv_cap _ _ _ _ HI).
Qed.

Lemma raising_the_limit_keeps_every_run_witness :
  (1 <= 2)%Z /\ (2 <= 5)%Z /\
  run polite_fetch 2 ["a"; "b"]%string two_inside (init false)
    = Some two_inside_end /\
  run polite_fetch 5 ["a"; "b"]%string two_inside (init false)
    = Some two_inside_end.
Proof.
  assert (H1 : (1 <= 2)%Z) by lia. assert (H2 : (2 <= 5)%Z) by lia.
  assert (H3 : run polite_fetch 2 ["a"; "b"]%string two_inside (init false)
               = Some two_inside_end) by reflexivity.
  split; [exact H1 |]. split; [exact H2 |]. split; [exact H3 |].
  exact (proj1 (raising_the_limit_keeps_every_run _ _ _ _ _ _ _ H1 H2 H3)).
Defined.

(** X7. The order of the returned list is the order in which the tasks
    sent their results, not the order of submission: for any two keys,
    any executor and any limit of at least one, the run in which the
    second task goes first returns the second key's result before the
    first key's. *)
Theorem results_come_in_completion_order (fetch : Executor) (NumWorkers : Z)
    (u1 u2 : string) (c0 : bool) :
  (1 <= NumWorkers)%Z ->
  exists s,
    run fetch NumWorkers [u1; u2] two_swapped (init c0) = Some s /\
    main s = MReturn
      [mkResult u2 (fst (fetch 1 c0 u2)) (snd (fetch 1 c0 u2));
       mkResult u1 (fst (fetch 0 c0 u1)) (snd (fetch 0 c0 u1))].
Proof.
  intros HN.
  destruct (fetch 1 c0 u2) as [d2 e2] eqn:F2.
  destruct (fetch 0 c0 u1) as [d1 e1] eqn:F1.
  eexists. split.
  - apply (run_limit_mono fetch [u1; u2] 1 NumWorkers); [lia | exact HN |].
    cbv. rewrite F2. cbv. rewrite F1. cbv. reflexivity.
  - reflexivity.
Qed.

Lemma results_come_in_completion_order_witness :
  (1 <= 1)%Z /\
  exists s,
    run polite_fetch 1 ["a"; "b"]%string two_swapped (init false) = Some s /\
    main s = MReturn [mkResult "b" [x6f; x6b] None; mkResult "a" [x6f; x6b] None].
Proof.
  assert (H1 : (1 <= 1)%Z) by lia.
  split; [exact H1 |].
  exact (results_come_in_completion_order polite_fetch 1 "a" "b" false H1).
Defined.

(** ** [SimpleScraper.Scrape], [ProcessResults] and [ScraperExec] *)

(** X8. [SimpleScraper.Scrape] succeeds exactly when the request could be
    built, the client got a response, the status is 200 and the whole body
    could be read; it then returns the body as read.  In every other case
    it returns an error and no data at all: a readable body behind another
    status, and the bytes read before a read error, are dropped. *)
Theorem SimpleScraper_Scrape_succeeds_iff (x : Exchange) (url : string) :
  (snd (SimpleScraper_Scrape x url) = None <->
     new_request x = None /\ client_do x = None /\
     status_code x = 200%Z /\ snd (read_all x) = None) /\
  (snd (SimpleScraper_Scrape x url) = None ->
     fst (SimpleScraper_Scrape x url) = fst (read_all x)) /\
  (snd (SimpleScraper_Scrape x url) <> None ->
     fst (SimpleScraper_Scrape x url) = []).
Proof.
  unfold SimpleScraper_Scrape, StatusOK.
  destruct (new_request x) as [e1|]; simpl; [by repeat split; intros; intuition |].
  destruct (client_do x) as [e2|]; simpl; [by repeat split; intros; intuition |].
  destruct (Z.eqb_spec (status_code x) 200) as [Hs | Hs]; simpl.
  - destruct (read_all x) as [body [e3|]]; simpl;
      repeat split; intros; intuition; done.
  - repeat split; intros; intuition; done.
Qed.

Lemma result_source (fetch : Executor) (NumWorkers : Z) (urls : list string)
    s final r :
  Inv fetch NumWorkers urls s -> main s = MReturn final -> r ∈ final ->
  exists i c, urls !! i = Some (URL r) /\ (Data r, Err r) = fetch i c (URL r).
Proof.
  intros HI Hm Hr.
  destruct (returned_pool _ _ _ s final HI Hm) as (Hu & _ & Ho & _).
  rewrite Ho in Hr. destruct (outcome_source _ _ Hr) as (i & g & Hi & Hg).
  assert (Hb : built (g_pc g) = Some r) by (by destruct (g_pc g)).
  destruct (inv_built _ _ _ _ HI i g Hi r Hb) as (Hurl & c & Hc).
  exists i, c. rewrite Hurl. split; [|done].
  rewrite <- Hu. by rewrite list_lookup_fmap, Hi.
Qed.

(** X9. In the list returned by a batch that uses a [SimpleScraper], every
    entry is what [SimpleScraper.Scrape] made of one exchange for a
    submitted url: an entry with an error carries no data, and an entry
    without error stems from a response with status 200. *)
Theorem SimpleScraper_batch_results (net : Net) (NumWorkers : Z)
    (urls : list string) (c0 : bool) (sched : list event) (s : state)
    (final : list Result) (r : Result) :
  run (SimpleScraper net) NumWorkers urls sched (init c0) = Some s ->
  main s = MReturn final -> r ∈ final ->
  exists i c,
    urls !! i = Some (URL r) /\
    (Data r, Err r) = SimpleScraper_Scrape (net i c (URL r)) (URL r) /\
    (Err r <> None -> Data r = []) /\
    (Err r = None -> status_code (net i c (URL r)) = 200%Z).
Proof.
  intros Hrun Hm Hr.
  destruct (run_cases _ _ _ _ _ _ Hrun) as [[HN HI] | [HN HG]].
  - destruct (result_source _ _ _ s final r HI Hm Hr) as (i & c & Hi & Hc).
    exists i, c. split; [done |]. split; [done |].
    unfold SimpleScraper in Hc.
    destruct (SimpleScraper_Scrape_succeeds_iff (net i c (URL r)) (URL r))
      as (Hiff & _ & Hnil).
    rewrite <- Hc in Hiff, Hnil. simpl in *. split; [done |].
    intros He. by destruct (proj1 Hiff He) as (_ & _ & ? & _).
  - destruct (gate_neg _ _ _ HG HN) as [_ [H | H]]; congruence.
Qed.

Lemma SimpleScraper_batch_results_witness :
  run (SimpleScraper net_404) ScraperExec_workers ScraperExec_urls
      exec_whole (init false) = Some exec_whole_end /\
  exists final r,
    main exec_whole_end = MReturn final /\ r ∈ final /\
    Err r = Some "bad status code: 404"%string /\ Data r = [].
Proof.
  assert (H1 : run (SimpleScraper net_404) ScraperExec_workers ScraperExec_urls
                   exec_whole (init false) = Some exec_whole_end)
    by reflexivity.
  split; [exact H1 |].
  exists (collected (main exec_whole_end)),
         (mkResult "https://github.com" [] (Some "bad status code: 404"%string)).
  assert (H2 : main exec_whole_end
               = MReturn (collected (main exec_whole_end)))
    by reflexivity.
  assert (H3 : mkResult "https://github.com" []
                 (Some "bad status code: 404"%string)
               ∈ collected (main exec_whole_end))
    by (do 2 apply list_elem_of_further; apply list_elem_of_here).
  split; [exact H2 |]. split; [exact H3 |]. split; [reflexivity |].
  destruct (SimpleScraper_batch_results _ _ _ _ _ _ _ _ H1 H2 H3)
    as (i & c & _ & _ & Hnil & _).
  apply Hnil. discriminate.
Defined.

(** X10. [ProcessResults] applied to what a batch returned, as in
    [ScraperExec], prints exactly one line per submitted url.  For every
    url it prints the line that reports what the executor returned for
    it: "Failed to fetch", the url, a colon and the error if there is
    one, else "Fetched", the number of bytes in decimal, "bytes from" and
    the url; each line ends with a line feed.  It prints no other
    line. *)
Theorem ProcessResults_reports_every_key (fetch : Executor) (NumWorkers : Z)
    (urls : list string) (c0 : bool) (sched : list event) (s : state)
    (final : list Result) :
  run fetch NumWorkers urls sched (init c0) = Some s ->
  main s = MReturn final ->
  let line (u : string) (o : list byte * option string) : string :=
    match o with
    | (_, Some e) =>
        "Failed to fetch " +:+ u +:+ ": " +:+ e
        +:+ String (Ascii.ascii_of_nat 10) EmptyString
    | (d, None) =>
        "Fetched " +:+ pretty (length d) +:+ " bytes from " +:+ u
        +:+ String (Ascii.ascii_of_nat 10) EmptyString
    end in
  length (ProcessResults final) = length urls /\
  (forall i u, urls !! i = Some u ->
     exists c, line u (fetch i c u) ∈ ProcessResults final) /\
  (forall l, l ∈ ProcessResults final ->
     exists i u c, urls !! i = Some u /\ l = line u (fetch i c u)).
Proof.
  intros Hrun Hm line.
  assert (Hline : forall r, report r = line (URL r) (Data r, Err r)).
  { intros [u d [e|]]; reflexivity. }
  destruct (run_cases _ _ _ _ _ _ Hrun) as [[HN HI] | [HN HG]].
  - split; [|split].
    + unfold ProcessResults. rewrite length_map.
      by destruct (returned_pool _ _ _ s final HI Hm) as (_ & _ & _ & _ & Hl & _).
    + intros i u Hi.
      destruct (returned_outcome _ _ _ s final i u HI Hm Hi)
        as (c & r & Hin & Hurl & Hc).
      exists c. unfold ProcessResults.
      apply (list_elem_of_fmap_2' report final r); [done |].
      by rewrite Hline, Hurl, Hc.
    + intros l Hl. unfold ProcessResults in Hl.
      apply list_elem_of_fmap in Hl as (r & -> & Hr).
      destruct (result_source _ _ _ s final r HI Hm Hr) as (i & c & Hi & Hc).
      exists i, (URL r), c. split; [done |]. by rewrite Hline, Hc.
  - destruct (gate_neg _ _ _ HG HN) as [_ [H | H]]; congruence.
Qed.

Lemma ProcessResults_reports_every_key_witness :
  run (SimpleScraper net_404) ScraperExec_workers ScraperExec_urls
      exec_whole (init false) = Some exec_whole_end /\
  exists final,
    main exec_whole_end = MReturn final /\
    length (ProcessResults final) = 3 /\
    ("Failed to fetch https://github.com: bad status code: 404"
     +:+ String (Ascii.ascii_of_nat 10) EmptyString) ∈ ProcessResults final /\
    ("Fetched 2 bytes from https://golang.org"
     +:+ String (Ascii.ascii_of_nat 10) EmptyString) ∈ ProcessResults final.
Proof.
  assert (H1 : run (SimpleScraper net_404) ScraperExec_workers ScraperExec_urls
                   exec_whole (init false) = Some exec_whole_end)
    by reflexivity.
  split; [exact H1 |].
  exists (collected (main exec_whole_end)).
  assert (H2 : main exec_whole_end
               = MReturn (collected (main exec_whole_end)))
    by reflexivity.
  split; [exact H2 |].
  destruct (ProcessResults_reports_every_key _ _ _ _ _ _ _ H1 H2)
    as (Hlen & Hall & _).
  split; [exact Hlen |]. split.
  - destruct (Hall 2 "https://github.com"%string eq_refl) as [[|] Hc];
      vm_compute in Hc; exact Hc.
  - destruct (Hall 1 "https://golang.org"%string eq_refl) as [[|] Hc];
      vm_compute in Hc; exact Hc.
Defined.

End ScraperFacts.

(* ===================================================================== *)
(** * Further properties of learning/context.go *)
(* ===================================================================== *)

Module ContextFacts.
Import Context ContextProofs.

Section Goroutine.

Variable slow : SlowCall.

Local Abbreviation step := (step slow).
Local Abbreviation run := (run slow).

(** After the caller has returned, a goroutine that has not got rid of
    its response never will. *)
Lemma step_left_behind e s s' :
  mn s <> MSelect -> bg s <> BExit -> step e s = Some s' ->
  mn s' <> MSelect /\ bg s' <> BExit.
Proof.
  intros Hm Hb. destruct e as [dt| | |]; simpl.
  - destruct (0 <? dt)%Z; [|done]. intros H; by inversion H; subst.
  - destruct (bg s); try done.
    destruct (sleep_ms slow <=? now s)%Z; [|done].
    intros H; by inversion H; subst.
  - by destruct (mn s).
  - by destruct (mn s).
Qed.

Lemma run_left_behind sched s s' :
  mn s <> MSelect -> bg s <> BExit -> run sched s = Some s' ->
  bg s' <> BExit.
Proof.
  intros Hm Hb Hrun.
  apply (race_invariant slow (fun s => mn s <> MSelect /\ bg s <> BExit)
           (fun e s1 s2 H => step_left_behind e s1 s2 (proj1 H) (proj2 H))
           sched s s' (conj Hm Hb) Hrun).
Qed.

End Goroutine.

(** ** What becomes of the goroutine, and when [fetchUserData] returns *)

(** X11. Whenever [fetchUserData] has returned, one of two things holds.
    Either it returns the slow call's own pair, and then the goroutine
    has completed its send and is gone; or it returns the timeout error,
    and then the goroutine is still there and will never finish, whatever
    happens afterwards. *)
Theorem fetchUserData_goroutine_ends_iff_answered (slow : SlowCall)
    (ctx : option Z) (uid : Z) (sched : list event) (s : state)
    (v : Z) (e : option string) :
  run slow sched (fetchUserData ctx uid) = Some s ->
  mn s = MReturn v e ->
  (bg s = BExit /\ (v, e) = ret slow) \/
  (bg s <> BExit /\ (v, e) = (0%Z, Some too_long) /\
   forall sched' s', run slow sched' s = Some s' -> bg s' <> BExit).
Proof.
  intros Hrun Hm. destruct (run_LeakInv slow ctx sched uid s Hrun) as [HR HL].
  destruct (bg s) eqn:Hb.
  - right. split; [done |].
    split; [apply (leak_timeout _ _ HL v e Hm); by rewrite Hb |].
    intros sched' s' Hrun'. eapply run_left_behind; [| |exact Hrun'].
    + by rewrite Hm.
    + by rewrite Hb.
  - right. split; [done |].
    split; [apply (leak_timeout _ _ HL v e Hm); by rewrite Hb |].
    intros sched' s' Hrun'. eapply run_left_behind; [| |exact Hrun'].
    + by rewrite Hm.
    + by rewrite Hb.
  - left. split; [done |]. destruct (leak_exit _ _ HL Hb) as [Hm' _].
    rewrite Hm in Hm'. inversion Hm'; subst. by destruct (ret slow).
Qed.

Lemma fetchUserData_goroutine_ends_iff_answered_witness :
  run fetchThirdPartyStuffWhichCanBeSlow (in_time ++ [EvSelectResp])
      (fetchUserData None 10) = Some answered_end /\
  mn answered_end = MReturn 666 None /\
  bg answered_end = BExit.
Proof.
  assert (H1 : run fetchThirdPartyStuffWhichCanBeSlow (in_time ++ [EvSelectResp])
                   (fetchUserData None 10) = Some answered_end) by reflexivity.
  assert (H2 : mn answered_end = MReturn 666 None) by reflexivity.
  split; [exact H1 |]. split; [exact H2 |].
  destruct (fetchUserData_goroutine_ends_iff_answered _ _ _ _ _ _ _ H1 H2)
    as [[Hb _] | [_ [Hv _]]]; [exact Hb | discriminate Hv].
Defined.

(** X12. [fetchUserData] never returns the slow call's pair before the
    call's sleep is over, and never the timeout error before the deadline
    of its context, which is the caller's deadline or 200ms, whichever
    comes first.  So whatever it returns while the deadline has not come
    is the slow call's pair, and whatever it returns while the sleep
    would still last is the timeout error. *)
Theorem fetchUserData_returns_nothing_too_early (slow : SlowCall)
    (ctx : option Z) (uid : Z) (sched : list event) (s : state)
    (v : Z) (e : option string) :
  run slow sched (fetchUserData ctx uid) = Some s ->
  mn s = MReturn v e ->
  (bg s = BExit -> (sleep_ms slow <= now s)%Z) /\
  (bg s <> BExit -> (deadline s <= now s)%Z) /\
  ((now s < deadline s)%Z -> (v, e) = ret slow) /\
  ((now s < sleep_ms slow)%Z -> (v, e) = (0%Z, Some too_long)) /\
  (deadline s <= budget_ms)%Z.
Proof.
  intros Hrun Hm. destruct (run_LeakInv slow ctx sched uid s Hrun) as [HR HL].
  split; [intros Hb; by destruct (leak_exit _ _ HL Hb) |].
  split; [intros Hb; by destruct (leak_timeout _ _ HL v e Hm Hb) |].
  split; [|split].
  - intros Hlt. destruct (bg s) eqn:Hb.
    + destruct (leak_timeout _ _ HL v e Hm) as [_ ?]; [by rewrite Hb | lia].
    + destruct (leak_timeout _ _ HL v e Hm) as [_ ?]; [by rewrite Hb | lia].
    + destruct (leak_exit _ _ HL Hb) as [Hm' _]. rewrite Hm in Hm'.
      inversion Hm'; subst. by destruct (ret slow).
  - intros Hlt. apply (leak_timeout _ _ HL v e Hm).
    intros Hb. destruct (leak_exit _ _ HL Hb). lia.
  - unfold deadline. destruct (parent s); lia.
Qed.

Lemma fetchUserData_returns_nothing_too_early_witness :
  run fetchThirdPartyStuffWhichCanBeSlow too_late (fetchUserData (Some 100%Z) 10)
    = Some too_late_end /\
  mn too_late_end = MReturn 0 (Some too_long) /\
  (deadline too_late_end <= now too_late_end)%Z.
Proof.
  assert (H1 : run fetchThirdPartyStuffWhichCanBeSlow too_late
                   (fetchUserData (Some 100%Z) 10) = Some too_late_end)
    by reflexivity.
  assert (H2 : mn too_late_end = MReturn 0 (Some too_long)) by reflexivity.
  split; [exact H1 |]. split; [exact H2 |].
  destruct (fetchUserData_returns_nothing_too_early _ _ _ _ _ _ _ H1 H2)
    as (_ & H & _).
  apply H. discriminate.
Defined.

(** X13. The caller of [fetchUserData] is never held beyond the deadline:
    while it is in the [select], once the deadline has come the timeout
    case is ready whatever the goroutine is doing, and from every such
    state at most one lapse of time and one step lead to the return. *)
Theorem fetchUserData_caller_is_never_stuck (slow : SlowCall)
    (ctx : option Z) (uid : Z) (sched : list event) (s : state) :
  run slow sched (fetchUserData ctx uid) = Some s ->
  mn s = MSelect ->
  ((deadline s <= now s)%Z ->
     exists s', step slow EvSelectDone s = Some s' /\
                result s' = Some (0%Z, Some too_long)) /\
  exists sched' s',
    length sched' <= 2 /\ run slow sched' s = Some s' /\ result s' <> None.
Proof.
  intros Hrun Hm.
  assert (Hdone : forall t, mn t = MSelect -> (deadline t <= now t)%Z ->
            exists t', step slow EvSelectDone t = Some t' /\
                       result t' = Some (0%Z, Some too_long)).
  { intros t Ht Hd. simpl. rewrite Ht. unfold ctx_is_done.
    destruct (Z.leb_spec (deadline t) (now t)); [|lia].
    rewrite orb_true_r. eexists. by split. }
  split; [by apply Hdone |].
  destruct (Z.le_gt_cases (deadline s) (now s)) as [Hle | Hgt].
  - destruct (Hdone s Hm Hle) as (s' & Hs' & Hr).
    exists [EvSelectDone], s'. split; [simpl; lia |].
    split; [cbn [Context.run]; by rewrite Hs' | by rewrite Hr].
  - set (t := mkState (now s + (deadline s - now s)) (parent s) (userID s)
                      (cancelled s) (bg s) (mn s)).
    destruct (Hdone t) as (s' & Hs' & Hr); [done | |].
    { unfold deadline, t. simpl. fold (deadline s). lia. }
    assert (Ht : step slow (EvTick (deadline s - now s)) s = Some t).
    { simpl. by destruct (Z.ltb_spec 0 (deadline s - now s)); [|lia]. }
    exists [EvTick (deadline s - now s); EvSelectDone], s'.
    split; [simpl; lia |]. split; [|by rewrite Hr].
    cbn [Context.run]. rewrite Ht. by rewrite Hs'.
Qed.

Lemma fetchUserData_caller_is_never_stuck_witness :
  run fetchThirdPartyStuffWhichCanBeSlow [EvTick 100]
      (fetchUserData (Some 100%Z) 10) = Some expired_end /\
  mn expired_end = MSelect /\
  (deadline expired_end <= now expired_end)%Z /\
  exists s', step fetchThirdPartyStuffWhichCanBeSlow EvSelectDone expired_end
               = Some s' /\
             result s' = Some (0%Z, Some too_long).
Proof.
  assert (H1 : run fetchThirdPartyStuffWhichCanBeSlow [EvTick 100]
                   (fetchUserData (Some 100%Z) 10) = Some expired_end)
    by reflexivity.
  assert (H2 : mn expired_end = MSelect) by reflexivity.
  assert (H3 : (deadline expired_end <= now expired_end)%Z)
    by (vm_compute; discriminate).
  split; [exact H1 |]. split; [exact H2 |]. split; [exact H3 |].
  exact (proj1 (fetchUserData_caller_is_never_stuck _ _ _ _ _ H1 H2) H3).
Defined.

End ContextFacts.
